(** * QuickSort.js: a shallow embedding and its verification

    The module [src/utils/QuickSort.js] sorts a JavaScript [number[]] in
    place.  It offers a Lomuto partition, a Hoare partition, and five sort
    drivers: [quickSort], [randomizedQuickSort], [medianOfThreeQuickSort],
    [iterativeQuickSort] and [threeWayQuickSort].

    Modelling choices.
    - An array is a [list Z]; the elements are integers, on which the
      JavaScript comparisons [<], [<=], [>] are the usual total order.
    - Array indices and range bounds are [Z]: the source computes [low - 1],
      [pivotIndex - 1] and [high + 1], which leave the natural numbers and
      the array.
    - The array is threaded explicitly: a function that mutates [arr] takes
      the array and returns the updated one.
    - An access outside the array is where JavaScript would read [undefined]
      or grow the array, which leaves the type [number[]].  The embedding
      stops there with [OutOfRange], so that a result [Ok] certifies that
      every access was inside the array.
    - Loops and recursion carry a [fuel] counter and give [OutOfFuel] when it
      is used up.  The loop conditions are tested as in the source, before a
      unit of fuel is spent.
    - [Math.random()] is an oracle: the n-th call returns the rational
      [random n], of which the theorems assume [0 <= random n < 1].
    - [hoarePartition] runs on an array that records the indices it is
      accessed at, so that the range of its accesses can be stated.

    - [performance.now()] is an oracle as well: the n-th call returns the
      rational [now n].  The formatting [toFixed] of the elapsed time is a
      parameter of [benchmarkSort]. *)

From Stdlib Require Import ZArith QArith Qround Lia.
From stdpp Require Import base list sorting strings.

Local Open Scope Z_scope.

(** * The embedding of QuickSort.js *)

(** ** Results of a run *)

Inductive result (A : Type) : Type :=
| Ok (x : A)
| OutOfRange
| OutOfFuel.

Arguments Ok {A} x.
Arguments OutOfRange {A}.
Arguments OutOfFuel {A}.

Definition bind {A B : Type} (m : result A) (k : A -> result B) : result B :=
  match m with
  | Ok x => k x
  | OutOfRange => OutOfRange
  | OutOfFuel => OutOfFuel
  end.

Notation "'let*' x ':=' m 'in' k" := (bind m (fun x => k))
  (at level 10, x name, m at level 100, k at level 200).
Notation "'let*' ' p ':=' m 'in' k" :=
  (bind m (fun x => match x with p => k end))
  (at level 10, p pattern, m at level 100, k at level 200).

(** ** Array primitives *)

Definition len (arr : list Z) : Z := Z.of_nat (length arr).

(** [arr[i]] as an expression. *)
Definition get (arr : list Z) (i : Z) : result Z :=
  if i <? 0 then OutOfRange
  else match arr !! Z.to_nat i with
       | Some v => Ok v
       | None => OutOfRange
       end.

(** [arr[i] = v]. *)
Definition set (arr : list Z) (i : Z) (v : Z) : result (list Z) :=
  if (0 <=? i) && (i <? len arr) then Ok (<[Z.to_nat i := v]> arr)
  else OutOfRange.

(** [swap(arr, i, j)]: [[arr[i], arr[j]] = [arr[j], arr[i]]] reads [arr[j]],
    then [arr[i]], then assigns [arr[i]] and [arr[j]]. *)
Definition swap (arr : list Z) (i j : Z) : result (list Z) :=
  let* vj := get arr j in
  let* vi := get arr i in
  let* arr := set arr i vj in
  set arr j vi.

(** ** Lomuto partition *)

(** The loop [for (let j = low; j < high; j++)] of [partition], entered with
    the current [i] and [j]. *)
Fixpoint partition_loop (fuel : nat) (arr : list Z) (pivot high i j : Z)
  : result (Z * list Z) :=
  if j <? high then
    match fuel with
    | O => OutOfFuel
    | S fuel' =>
        let* v := get arr j in
        if v <=? pivot then
          let i := i + 1 in
          let* arr := swap arr i j in
          partition_loop fuel' arr pivot high i (j + 1)
        else partition_loop fuel' arr pivot high i (j + 1)
    end
  else Ok (i, arr).

Definition partition (fuel : nat) (arr : list Z) (low high : Z)
  : result (Z * list Z) :=
  let* pivot := get arr high in
  let* '(i, arr) := partition_loop fuel arr pivot high (low - 1) low in
  let* arr := swap arr (i + 1) high in
  Ok (i + 1, arr).

(** ** Hoare partition

    [hoarePartition] runs on a traced array: the array together with the
    list of the indices read or written so far, the latest first. *)

Definition traced : Type := list Z * list Z.

Definition get_t (st : traced) (i : Z) : result (Z * traced) :=
  let* v := get (fst st) i in
  Ok (v, (fst st, i :: snd st)).

Definition swap_t (st : traced) (i j : Z) : result traced :=
  let* arr := swap (fst st) i j in
  Ok (arr, j :: i :: i :: j :: snd st).

(** [do { i++; } while (arr[i] < pivot);] *)
Fixpoint scan_up (fuel : nat) (st : traced) (pivot i : Z)
  : result (Z * traced) :=
  match fuel with
  | O => OutOfFuel
  | S fuel' =>
      let i := i + 1 in
      let* '(v, st) := get_t st i in
      if v <? pivot then scan_up fuel' st pivot i else Ok (i, st)
  end.

(** [do { j--; } while (arr[j] > pivot);] *)
Fixpoint scan_down (fuel : nat) (st : traced) (pivot j : Z)
  : result (Z * traced) :=
  match fuel with
  | O => OutOfFuel
  | S fuel' =>
      let j := j - 1 in
      let* '(v, st) := get_t st j in
      if v >? pivot then scan_down fuel' st pivot j else Ok (j, st)
  end.

(** The loop [while (true)] of [hoarePartition]. *)
Fixpoint hoare_loop (fuel : nat) (st : traced) (pivot i j : Z)
  : result (Z * traced) :=
  match fuel with
  | O => OutOfFuel
  | S fuel' =>
      let* '(i, st) := scan_up fuel st pivot i in
      let* '(j, st) := scan_down fuel st pivot j in
      if i >=? j then Ok (j, st)
      else
        let* st := swap_t st i j in
        hoare_loop fuel' st pivot i j
  end.

Definition hoarePartition_traced (fuel : nat) (arr : list Z) (low high : Z)
  : result (Z * traced) :=
  let* '(pivot, st) := get_t (arr, []) low in
  hoare_loop fuel st pivot (low - 1) (high + 1).

Definition hoarePartition (fuel : nat) (arr : list Z) (low high : Z)
  : result (Z * list Z) :=
  let* '(j, st) := hoarePartition_traced fuel arr low high in
  Ok (j, fst st).

(** ** The recursive Lomuto sort *)

Fixpoint quickSort (fuel : nat) (arr : list Z) (low high : Z)
  : result (list Z) :=
  if low <? high then
    match fuel with
    | O => OutOfFuel
    | S fuel' =>
        let* '(pivotIndex, arr) := partition fuel arr low high in
        let* arr := quickSort fuel' arr low (pivotIndex - 1) in
        quickSort fuel' arr (pivotIndex + 1) high
    end
  else Ok arr.

(** ** The randomized sort

    The state of the random oracle is the number of calls made so far.

    The product [r * (high - low + 1)] is exact here.  JavaScript rounds it
    to a double before [Math.floor], so that for one and the same draw the
    code may pick a neighbouring index of the range.  The index is a pivot
    choice inside [[low, high]] in both; the properties below are stated
    for every oracle, that is, for every such choice, and none of them
    says which index a given draw yields. *)

Definition randomIndex (r : Q) (low high : Z) : Z :=
  Qfloor (r * inject_Z (high - low + 1)) + low.

Fixpoint randomizedQuickSort (random : nat -> Q) (fuel : nat) (calls : nat)
    (arr : list Z) (low high : Z) : result (list Z * nat) :=
  if low <? high then
    match fuel with
    | O => OutOfFuel
    | S fuel' =>
        let randomIndex := randomIndex (random calls) low high in
        let calls := S calls in
        let* arr := swap arr randomIndex high in
        let* '(pivotIndex, arr) := partition fuel arr low high in
        let* '(arr, calls) :=
          randomizedQuickSort random fuel' calls arr low (pivotIndex - 1) in
        randomizedQuickSort random fuel' calls arr (pivotIndex + 1) high
    end
  else Ok (arr, calls).

(** ** The median-of-three sort *)

Definition medianOfThree (arr : list Z) (low high : Z) : result (Z * list Z) :=
  let mid := (low + high) / 2 in
  let* am := get arr mid in
  let* al := get arr low in
  let* arr := (if am <? al then swap arr low mid else Ok arr) in
  let* ah := get arr high in
  let* al := get arr low in
  let* arr := (if ah <? al then swap arr low high else Ok arr) in
  let* ah := get arr high in
  let* am := get arr mid in
  let* arr := (if ah <? am then swap arr mid high else Ok arr) in
  Ok (mid, arr).

Fixpoint medianOfThreeQuickSort (fuel : nat) (arr : list Z) (low high : Z)
  : result (list Z) :=
  if low <? high then
    match fuel with
    | O => OutOfFuel
    | S fuel' =>
        let* '(pivotIndex, arr) := medianOfThree arr low high in
        let* arr := swap arr pivotIndex high in
        let* '(newPivotIndex, arr) := partition fuel arr low high in
        let* arr := medianOfThreeQuickSort fuel' arr low (newPivotIndex - 1) in
        medianOfThreeQuickSort fuel' arr (newPivotIndex + 1) high
    end
  else Ok arr.

(** ** The iterative sort

    The explicit stack is a list whose head is the top: [stack.push(x)] is
    [x :: stack].  A [pop] from the empty stack gives [undefined], and
    [undefined < high] is false. *)

Fixpoint iterative_loop (fuel : nat) (arr : list Z) (stack : list Z)
  : result (list Z) :=
  match stack with
  | [] => Ok arr
  | high :: stack =>
      match fuel with
      | O => OutOfFuel
      | S fuel' =>
          match stack with
          | [] => iterative_loop fuel' arr []
          | low :: stack =>
              if low <? high then
                let* '(pivotIndex, arr) := partition fuel arr low high in
                let stack := low :: stack in
                let stack := (pivotIndex - 1) :: stack in
                let stack := (pivotIndex + 1) :: stack in
                let stack := high :: stack in
                iterative_loop fuel' arr stack
              else iterative_loop fuel' arr stack
          end
      end
  end.

Definition iterativeQuickSort (fuel : nat) (arr : list Z) : result (list Z) :=
  let stack := [] in
  let stack := 0 :: stack in
  let stack := (len arr - 1) :: stack in
  iterative_loop fuel arr stack.

(** ** The three-way sort *)

(** The loop [while (i <= gt)] of [threeWayPartition]. *)
Fixpoint threeWay_loop (fuel : nat) (arr : list Z) (pivot lt i gt : Z)
  : result (Z * Z * list Z) :=
  if i <=? gt then
    match fuel with
    | O => OutOfFuel
    | S fuel' =>
        let* v := get arr i in
        if v <? pivot then
          let* arr := swap arr lt i in
          threeWay_loop fuel' arr pivot (lt + 1) (i + 1) gt
        else
          let* v := get arr i in
          if v >? pivot then
            let* arr := swap arr i gt in
            threeWay_loop fuel' arr pivot lt i (gt - 1)
          else threeWay_loop fuel' arr pivot lt (i + 1) gt
    end
  else Ok (lt, gt, arr).

Definition threeWayPartition (fuel : nat) (arr : list Z) (low high : Z)
  : result (Z * Z * list Z) :=
  let* pivot := get arr low in
  threeWay_loop fuel arr pivot low (low + 1) high.

Fixpoint threeWayQuickSort (fuel : nat) (arr : list Z) (low high : Z)
  : result (list Z) :=
  if low <? high then
    match fuel with
    | O => OutOfFuel
    | S fuel' =>
        let* '(lt, gt, arr) := threeWayPartition fuel arr low high in
        let* arr := threeWayQuickSort fuel' arr low (lt - 1) in
        threeWayQuickSort fuel' arr (gt + 1) high
    end
  else Ok arr.

(** ** The check [isSorted] *)

(** The loop [for (let i = 1; i < arr.length; i++)] of [isSorted]. *)
Fixpoint isSorted_loop (fuel : nat) (arr : list Z) (i : Z) : result bool :=
  if i <? len arr then
    match fuel with
    | O => OutOfFuel
    | S fuel' =>
        let* x := get arr i in
        let* y := get arr (i - 1) in
        if x <? y then Ok false else isSorted_loop fuel' arr (i + 1)
    end
  else Ok true.

Definition isSorted (fuel : nat) (arr : list Z) : result bool :=
  isSorted_loop fuel arr 1.

(** ** The benchmark helper

    The object that [benchmarkSort] returns. *)
Module Report.
Record t : Type := make {
  algorithm : string;
  executionTime : string;
  isSorted : bool;
  arrayLength : Z
}.
End Report.

(** [sortFunction] is the effect of the call [sortFunction(testArr)] on
    [testArr]; its return value is dropped. *)
Definition benchmarkSort (now : nat -> Q) (toFixed : Q -> nat -> string)
    (fuel : nat) (arr : list Z) (sortFunction : list Z -> result (list Z))
    (name : string) : result Report.t :=
  let testArr := arr in
  let startTime := now 0%nat in
  let* testArr := sortFunction testArr in
  let endTime := now 1%nat in
  let executionTime := (endTime - startTime)%Q in
  let* sorted := isSorted fuel testArr in
  Ok (Report.make name (toFixed executionTime 4%nat +:+ "ms") sorted
        (len arr)).

(** ** Default bounds: [low = 0], [high = arr.length - 1] *)

Definition quickSort_default (fuel : nat) (arr : list Z) : result (list Z) :=
  quickSort fuel arr 0 (len arr - 1).

Definition randomizedQuickSort_default (random : nat -> Q) (fuel : nat)
    (arr : list Z) : result (list Z) :=
  let* '(arr, _) := randomizedQuickSort random fuel O arr 0 (len arr - 1) in
  Ok arr.

Definition medianOfThreeQuickSort_default (fuel : nat) (arr : list Z)
  : result (list Z) :=
  medianOfThreeQuickSort fuel arr 0 (len arr - 1).

Definition threeWayQuickSort_default (fuel : nat) (arr : list Z)
  : result (list Z) :=
  threeWayQuickSort fuel arr 0 (len arr - 1).

(** * Vocabulary of the specification *)

(** The element at index [k], for [0 <= k < len arr]. *)
Definition elt (arr : list Z) (k : Z) : Z := arr !!! Z.to_nat k.

(** The contents of the inclusive range [[low, high]]. *)
Definition slice (arr : list Z) (low high : Z) : list Z :=
  take (Z.to_nat (high - low + 1)) (drop (Z.to_nat low) arr).

(** [arr'] agrees with [arr] at every index outside [[low, high]]. *)
Definition same_outside (low high : Z) (arr arr' : list Z) : Prop :=
  forall k, 0 <= k < len arr -> k < low \/ high < k -> elt arr' k = elt arr k.

(** [arr'] is [arr] with the range [[low, high]] rearranged. *)
Definition rearranged (low high : Z) (arr arr' : list Z) : Prop :=
  arr' ≡ₚ arr /\ same_outside low high arr arr'.

(** Every adjacent pair inside [[low, high]] is in order. *)
Definition sorted_range (low high : Z) (arr : list Z) : Prop :=
  forall k, low <= k -> k < high -> elt arr k <= elt arr (k + 1).

(** For every adjacent pair, the earlier element is [<=] the later one. *)
Definition nondescending (arr : list Z) : Prop :=
  forall k x y, get arr k = Ok x -> get arr (k + 1) = Ok y -> x <= y.

(** The array after a successful [swap(arr, i, j)]. *)
Definition swapped (arr : list Z) (i j : Z) : list Z :=
  <[Z.to_nat j := elt arr i]> (<[Z.to_nat i := elt arr j]> arr).

(** Every index of the access log lies in [[low, high]]. *)
Definition log_within (low high : Z) (log : list Z) : Prop :=
  Forall (fun k => low <= k <= high) log.

(** The stack that holds the ranges [rs], the first on top. *)
Fixpoint stack_of (rs : list (Z * Z)) : list Z :=
  match rs with
  | [] => []
  | (low, high) :: rs => high :: low :: stack_of rs
  end.

(** [arr'] is [arr] after the ranges [rs] were sorted one after another. *)
Fixpoint sorted_in_turn (rs : list (Z * Z)) (arr arr' : list Z) : Prop :=
  match rs with
  | [] => arr' = arr
  | (low, high) :: rs =>
      exists arr1,
        (rearranged low high arr arr1 /\ sorted_range low high arr1) /\
        sorted_in_turn rs arr1 arr'
  end.

(** An upper bound on the iterations that the ranges [rs] give rise to. *)
Fixpoint stack_cost (rs : list (Z * Z)) : Z :=
  match rs with
  | [] => 0
  | (low, high) :: rs => 2 * Z.max 0 (high - low + 1) + 1 + stack_cost rs
  end.

Definition ranges_within (n : Z) (rs : list (Z * Z)) : Prop :=
  Forall (fun r => 0 <= fst r /\ snd r < n) rs.

(** The run [r] ends with a non-descending permutation of [arr]. *)
Definition sorted_permutation_of (arr : list Z) (r : result (list Z)) : Prop :=
  exists out, r = Ok out /\ out ≡ₚ arr /\ nondescending out.

(** [out] is [arr] with the range [[low, high]] sorted and nothing else
    touched. *)
Definition range_sorted_only (low high : Z) (arr out : list Z) : Prop :=
  len out = len arr /\
  slice out low high ≡ₚ slice arr low high /\
  nondescending (slice out low high) /\
  (forall k, k < low \/ high < k -> get out k = get arr k).

(** A sample oracle: the draws 0, 1/3, 2/3, 0, 1/3, ... *)
Definition thirds (n : nat) : Q := Z.of_nat (n mod 3) # 3.

(** * Properties of the embedding *)

(** ** The array primitives *)

Lemma len_nonneg arr : 0 <= len arr.
Proof. unfold len. lia. Qed.

Lemma get_ok arr k : 0 <= k < len arr -> get arr k = Ok (elt arr k).
Proof.
  intros Hk. unfold get, elt, len in *.
  destruct (Z.ltb_spec k 0) as [|_]; [lia|].
  destruct (arr !! Z.to_nat k) as [v|] eqn:E.
  - by rewrite (list_lookup_total_correct _ _ _ E).
  - apply lookup_ge_None in E. lia.
Qed.

Lemma get_Ok_inv arr k v :
  get arr k = Ok v -> 0 <= k < len arr /\ v = elt arr k.
Proof.
  unfold get, elt, len.
  destruct (Z.ltb_spec k 0) as [|Hk]; [discriminate|].
  destruct (arr !! Z.to_nat k) as [w|] eqn:E; [|discriminate].
  intros [= <-]. apply lookup_lt_Some in E as Hlt.
  split; [lia|]. by rewrite (list_lookup_total_correct _ _ _ E).
Qed.

Lemma get_outside arr k : ~ (0 <= k < len arr) -> get arr k = OutOfRange.
Proof.
  intros Hk. unfold get, len in *. destruct (Z.ltb_spec k 0); [done|].
  rewrite lookup_ge_None_2 by lia. done.
Qed.

Lemma elt_lookup arr k :
  0 <= k < len arr -> arr !! Z.to_nat k = Some (elt arr k).
Proof.
  intros Hk. unfold elt, len in *.
  apply list_lookup_lookup_total_lt. lia.
Qed.

Lemma swap_ok arr i j :
  0 <= i < len arr -> 0 <= j < len arr -> swap arr i j = Ok (swapped arr i j).
Proof.
  intros Hi Hj. unfold swap. rewrite !get_ok by done. simpl.
  unfold set at 1.
  destruct (Z.leb_spec 0 i); [|lia]. destruct (Z.ltb_spec i (len arr)); [|lia].
  simpl. unfold set, len in *. rewrite length_insert.
  destruct (Z.leb_spec 0 j); [|lia].
  destruct (Z.ltb_spec j (Z.of_nat (length arr))); [|lia].
  done.
Qed.

Lemma swapped_len arr i j : len (swapped arr i j) = len arr.
Proof. unfold swapped, len. by rewrite !length_insert. Qed.

Lemma swapped_elt arr i j k :
  0 <= i < len arr -> 0 <= j < len arr -> 0 <= k ->
  elt (swapped arr i j) k =
    if k =? j then elt arr i else if k =? i then elt arr j else elt arr k.
Proof.
  intros Hi Hj Hk. unfold swapped, elt, len in *.
  destruct (Z.eqb_spec k j) as [->|Hkj].
  - rewrite list_lookup_total_insert_eq; [done|]. rewrite length_insert. lia.
  - rewrite list_lookup_total_insert_ne by lia.
    destruct (Z.eqb_spec k i) as [->|Hki].
    + rewrite list_lookup_total_insert_eq; [done|lia].
    + by rewrite list_lookup_total_insert_ne by lia.
Qed.

Lemma swapped_perm arr i j :
  0 <= i < len arr -> 0 <= j < len arr -> swapped arr i j ≡ₚ arr.
Proof.
  intros Hi Hj. unfold swapped.
  apply Permutation_insert_swap; by apply elt_lookup.
Qed.

(** ** Ranges and rearrangements *)

Lemma slice_split arr low high :
  0 <= low -> low <= high + 1 -> high < len arr ->
  arr = take (Z.to_nat low) arr ++ slice arr low high
          ++ drop (Z.to_nat (high + 1)) arr.
Proof.
  intros H0 Hlh Hh. unfold slice.
  replace (Z.to_nat (high + 1))
    with (Z.to_nat low + Z.to_nat (high - low + 1))%nat by lia.
  rewrite <- drop_drop, take_drop. by rewrite take_drop.
Qed.

Lemma slice_length arr low high :
  0 <= low -> low <= high + 1 -> high < len arr ->
  length (slice arr low high) = Z.to_nat (high - low + 1).
Proof.
  intros H0 Hlh Hh. unfold slice, len in *.
  rewrite length_take, length_drop. lia.
Qed.

Lemma elt_slice arr low high k :
  0 <= low -> high < len arr -> 0 <= k <= high - low ->
  elt (slice arr low high) k = elt arr (low + k).
Proof.
  intros H0 Hh Hk. unfold elt, slice, len in *.
  rewrite lookup_total_take_lt by lia. rewrite lookup_total_drop.
  f_equal. lia.
Qed.

Lemma rearranged_len low high arr arr' :
  rearranged low high arr arr' -> len arr' = len arr.
Proof. intros [Hp _]. unfold len. by rewrite Hp. Qed.

Lemma rearranged_refl low high arr : rearranged low high arr arr.
Proof. split; [done|]. by intros k _ _. Qed.

Lemma rearranged_trans low high a1 a2 a3 :
  rearranged low high a1 a2 -> rearranged low high a2 a3 ->
  rearranged low high a1 a3.
Proof.
  intros H12 H23. pose proof (rearranged_len _ _ _ _ H12) as Hlen.
  destruct H12 as [Hp12 Ho12], H23 as [Hp23 Ho23]. split.
  - by rewrite Hp23.
  - intros k Hk Hout. rewrite Ho23 by (rewrite ?Hlen; done). by apply Ho12.
Qed.

Lemma rearranged_widen low high low' high' arr arr' :
  low' <= low -> high <= high' ->
  rearranged low high arr arr' -> rearranged low' high' arr arr'.
Proof.
  intros Hl Hh [Hp Ho]. split; [done|].
  intros k Hk Hout. apply Ho; [done|lia].
Qed.

Lemma rearranged_swapped low high arr i j :
  0 <= i < len arr -> 0 <= j < len arr ->
  low <= i <= high -> low <= j <= high ->
  rearranged low high arr (swapped arr i j).
Proof.
  intros Hi Hj Hil Hjl. split; [by apply swapped_perm|].
  intros k Hk Hout. rewrite swapped_elt by lia.
  destruct (Z.eqb_spec k j); [lia|]. destruct (Z.eqb_spec k i); [lia|]. done.
Qed.

Lemma same_outside_lookup low high arr arr' (n : nat) :
  len arr' = len arr -> same_outside low high arr arr' ->
  Z.of_nat n < low \/ high < Z.of_nat n -> arr' !! n = arr !! n.
Proof.
  intros Hlen Ho Hn. unfold len in Hlen.
  destruct (decide (n < length arr)%nat) as [Hlt|Hge].
  - pose proof (Ho (Z.of_nat n)) as H. unfold elt, len in H.
    rewrite Nat2Z.id in H.
    rewrite (list_lookup_lookup_total_lt arr' n) by lia.
    rewrite (list_lookup_lookup_total_lt arr n) by lia.
    f_equal. apply H; [lia|done].
  - rewrite !lookup_ge_None_2 by lia. done.
Qed.

Lemma rearranged_slice low high arr arr' :
  0 <= low -> low <= high + 1 -> high < len arr ->
  rearranged low high arr arr' ->
  slice arr' low high ≡ₚ slice arr low high.
Proof.
  intros H0 Hlh Hh Hr. pose proof (rearranged_len _ _ _ _ Hr) as Hlen.
  destruct Hr as [Hp Ho].
  assert (Hpre : take (Z.to_nat low) arr' = take (Z.to_nat low) arr).
  { apply list_eq. intros n. rewrite !lookup_take.
    case_decide; [|done].
    apply (same_outside_lookup low high); [done..|lia]. }
  assert (Hpost :
    drop (Z.to_nat (high + 1)) arr' = drop (Z.to_nat (high + 1)) arr).
  { apply list_eq. intros n. rewrite !lookup_drop.
    apply (same_outside_lookup low high); [done..|lia]. }
  rewrite (slice_split arr low high) in Hp at 1 by done.
  rewrite (slice_split arr' low high) in Hp by (rewrite ?Hlen; done).
  rewrite Hpre, Hpost in Hp.
  apply (inj (take (Z.to_nat low) arr ++.)) in Hp.
  by apply (inj (.++ drop (Z.to_nat (high + 1)) arr)) in Hp.
Qed.

Lemma slice_Forall (P : Z -> Prop) arr low high :
  0 <= low -> low <= high + 1 -> high < len arr ->
  Forall P (slice arr low high) <->
  (forall k, low <= k <= high -> P (elt arr k)).
Proof.
  intros H0 Hlh Hh. rewrite Forall_lookup. split.
  - intros H k Hk. replace k with (low + (k - low)) by lia.
    rewrite <- (elt_slice arr low high) by lia.
    apply (H (Z.to_nat (k - low))). unfold elt.
    apply list_lookup_lookup_total_lt.
    rewrite slice_length by done. lia.
  - intros H n x Hn. apply lookup_lt_Some in Hn as Hlt.
    rewrite slice_length in Hlt by done.
    apply list_lookup_total_correct in Hn. subst x.
    pose proof (elt_slice arr low high (Z.of_nat n) H0 Hh) as E.
    unfold elt at 1 in E. rewrite Nat2Z.id in E. rewrite E by lia.
    apply H. lia.
Qed.

Lemma rearranged_all (P : Z -> Prop) low high arr arr' :
  0 <= low -> low <= high + 1 -> high < len arr ->
  rearranged low high arr arr' ->
  (forall k, low <= k <= high -> P (elt arr k)) ->
  forall k, low <= k <= high -> P (elt arr' k).
Proof.
  intros H0 Hlh Hh Hr HP.
  pose proof (rearranged_len _ _ _ _ Hr) as Hlen.
  apply slice_Forall; [rewrite ?Hlen; done..|].
  rewrite (rearranged_slice low high arr arr') by done.
  by apply slice_Forall.
Qed.

(** ** Proof automation *)

(** Closes a goal about elements from the hypotheses, up to index
    arithmetic. *)
Ltac by_elt :=
  solve
    [ lia
    | match goal with
      | H : forall k : Z, _ |- _ => apply H; lia
      end
    | match goal with
      | H : context [elt ?a ?x] |- context [elt ?a ?y] =>
          replace y with x by lia; first [exact H | lia]
      end ].

Ltac swapped_cases :=
  rewrite ?swapped_elt by lia;
  repeat match goal with
    | |- context [?x =? ?y] => destruct (Z.eqb_spec x y)
    end;
  try by_elt.

(** ** The Lomuto partition *)

Lemma partition_loop_spec fuel low high pivot :
  forall arr i j,
    0 <= low -> high < len arr -> low <= j <= high -> low - 1 <= i < j ->
    (forall k, low <= k <= i -> elt arr k <= pivot) ->
    (forall k, i < k < j -> pivot < elt arr k) ->
    high - j <= Z.of_nat fuel ->
    exists i' arr',
      partition_loop fuel arr pivot high i j = Ok (i', arr') /\
      low - 1 <= i' < high /\
      rearranged low (high - 1) arr arr' /\
      (forall k, low <= k <= i' -> elt arr' k <= pivot) /\
      (forall k, i' < k < high -> pivot < elt arr' k).
Proof.
  induction fuel as [|fuel IH]; intros arr i j H0 Hh Hj Hi Hle Hgt Hfuel.
  - assert (j = high) as -> by lia. simpl. rewrite Z.ltb_irrefl.
    exists i, arr. split; [done|]. split; [lia|].
    split; [apply rearranged_refl|]. done.
  - simpl. destruct (Z.ltb_spec j high) as [Hlt|Hge].
    2:{ assert (j = high) as -> by lia. exists i, arr. split; [done|].
        split; [lia|]. split; [apply rearranged_refl|]. done. }
    rewrite get_ok by lia. simpl.
    destruct (Z.leb_spec (elt arr j) pivot) as [Hv|Hv].
    + rewrite swap_ok by lia. simpl.
      pose proof (rearranged_swapped low (high - 1) arr (i + 1) j) as Hsw.
      destruct (IH (swapped arr (i + 1) j) (i + 1) (j + 1))
        as (i' & arr' & Hrun & Hi' & Hre & Hle' & Hgt');
        rewrite ?swapped_len; try lia.
      * intros k Hk. swapped_cases.
      * intros k Hk. swapped_cases.
      * exists i', arr'. split; [done|]. split; [done|].
        split; [|done]. eapply rearranged_trans; [apply Hsw; lia|done].
    + destruct (IH arr i (j + 1))
        as (i' & arr' & Hrun & Hi' & Hre & Hle' & Hgt'); try lia; try done.
      * intros k Hk. destruct (Z.eq_dec k j) as [->|]; [lia|]. apply Hgt. lia.
      * exists i', arr'. done.
Qed.

Lemma partition_spec fuel arr low high :
  0 <= low -> low <= high -> high < len arr -> high - low <= Z.of_nat fuel ->
  exists p arr',
    partition fuel arr low high = Ok (p, arr') /\
    low <= p <= high /\
    rearranged low high arr arr' /\
    elt arr' p = elt arr high /\
    (forall k, low <= k < p -> elt arr' k <= elt arr high) /\
    (forall k, p < k <= high -> elt arr high < elt arr' k).
Proof.
  intros H0 Hlh Hh Hfuel. unfold partition. rewrite get_ok by lia. simpl.
  destruct (partition_loop_spec fuel low high (elt arr high) arr (low - 1) low)
    as (i & arr1 & Hrun & Hi & Hre & Hle & Hgt); try lia.
  rewrite Hrun. simpl.
  pose proof (rearranged_len _ _ _ _ Hre) as Hlen.
  rewrite swap_ok by lia. simpl.
  assert (Hpiv : elt arr1 high = elt arr high).
  { destruct Hre as [_ Ho]. apply Ho; lia. }
  exists (i + 1), (swapped arr1 (i + 1) high). split; [done|].
  split; [lia|]. split.
  { eapply rearranged_trans.
    - eapply rearranged_widen; [| |apply Hre]; lia.
    - apply rearranged_swapped; lia. }
  split; [swapped_cases|]. split.
  - intros k Hk. swapped_cases.
  - intros k Hk. swapped_cases.
Qed.

(** ** Sorting a range around a pivot zone

    Once the range [[low, high]] is split around a zone [[lt, gt]] of
    elements equal to [v], sorting the part before the zone and the part
    after it sorts the range. *)

Lemma sorted_around_pivot low high lt gt v a1 a2 a3 :
  0 <= low -> high < len a1 -> low <= lt -> lt <= gt -> gt <= high ->
  (forall k, low <= k < lt -> elt a1 k <= v) ->
  (forall k, lt <= k <= gt -> elt a1 k = v) ->
  (forall k, gt < k <= high -> v <= elt a1 k) ->
  rearranged low (lt - 1) a1 a2 -> sorted_range low (lt - 1) a2 ->
  rearranged (gt + 1) high a2 a3 -> sorted_range (gt + 1) high a3 ->
  rearranged low high a1 a3 /\ sorted_range low high a3.
Proof.
  intros H0 Hh Hl Hlg Hg Hle Heq Hge Hr12 Hs2 Hr23 Hs3.
  pose proof (rearranged_len _ _ _ _ Hr12) as Hlen2.
  pose proof (rearranged_len _ _ _ _ Hr23) as Hlen3.
  assert (Hle2 : forall k, low <= k <= lt - 1 -> elt a2 k <= v).
  { apply (rearranged_all (fun x => x <= v) low (lt - 1) a1); try done; try lia.
    intros k Hk. apply Hle. lia. }
  assert (Hge2 : forall k, gt + 1 <= k <= high -> v <= elt a2 k).
  { intros k Hk. destruct Hr12 as [_ Ho]. rewrite Ho by lia. apply Hge. lia. }
  assert (Hge3 : forall k, gt + 1 <= k <= high -> v <= elt a3 k).
  { apply (rearranged_all (fun x => v <= x) (gt + 1) high a2); try done; lia. }
  assert (H32 : forall k, low <= k <= gt -> elt a3 k = elt a2 k).
  { intros k Hk. destruct Hr23 as [_ Ho]. apply Ho; lia. }
  assert (H21 : forall k, lt <= k <= gt -> elt a2 k = elt a1 k).
  { intros k Hk. destruct Hr12 as [_ Ho]. apply Ho; lia. }
  split.
  - apply (rearranged_trans low high a1 a2 a3).
    + apply (rearranged_widen low (lt - 1)); [lia|lia|done].
    + apply (rearranged_widen (gt + 1) high); [lia|lia|done].
  - intros k Hk1 Hk2.
    destruct (Z.lt_trichotomy (k + 1) lt) as [Hc|[Hc|Hc]].
    + rewrite !H32 by lia. apply Hs2; lia.
    + rewrite !H32 by lia. rewrite (H21 (k + 1)), Heq by lia.
      apply Hle2. lia.
    + destruct (Z.lt_trichotomy k gt) as [Hd|[Hd|Hd]].
      * rewrite !H32, !H21, !Heq by lia. lia.
      * rewrite H32, H21, Heq by lia. apply Hge3. lia.
      * apply Hs3; lia.
Qed.

(** ** The recursive Lomuto sort *)

Lemma quickSort_spec fuel :
  forall arr low high,
    0 <= low -> high < len arr -> high - low <= Z.of_nat fuel ->
    exists arr',
      quickSort fuel arr low high = Ok arr' /\
      rearranged low high arr arr' /\ sorted_range low high arr'.
Proof.
  induction fuel as [|fuel IH]; intros arr low high H0 Hh Hfuel.
  - simpl. destruct (Z.ltb_spec low high); [lia|].
    exists arr. split; [done|]. split; [apply rearranged_refl|].
    intros k ? ?. lia.
  - cbn [quickSort]. destruct (Z.ltb_spec low high) as [Hlt|Hge].
    2:{ exists arr. split; [done|]. split; [apply rearranged_refl|].
        intros k ? ?. lia. }
    destruct (partition_spec (S fuel) arr low high)
      as (p & a1 & Hrun & Hp & Hr1 & Hpiv & Hle & Hgt); try lia.
    rewrite Hrun. cbn [bind].
    pose proof (rearranged_len _ _ _ _ Hr1) as Hlen1.
    destruct (IH a1 low (p - 1)) as (a2 & Hrun2 & Hr2 & Hs2); try lia.
    rewrite Hrun2. cbn [bind].
    pose proof (rearranged_len _ _ _ _ Hr2) as Hlen2.
    destruct (IH a2 (p + 1) high) as (a3 & Hrun3 & Hr3 & Hs3); try lia.
    rewrite Hrun3. exists a3. split; [done|].
    destruct (sorted_around_pivot low high p p (elt arr high) a1 a2 a3)
      as [Hr Hs]; try done; try lia.
    + intros k Hk. by replace k with p by lia.
    + intros k Hk. apply Z.lt_le_incl, Hgt. lia.
    + split; [|done]. by apply (rearranged_trans low high arr a1 a3).
Qed.

(** ** The randomized sort *)

Lemma randomIndex_range r low high :
  (0 <= r)%Q -> (r < 1)%Q -> low <= high ->
  low <= randomIndex r low high <= high.
Proof.
  intros Hr0 Hr1 Hlh. unfold randomIndex.
  set (n := high - low + 1).
  assert (Hn : (0 < inject_Z n)%Q).
  { change 0%Q with (inject_Z 0). rewrite <- Zlt_Qlt. lia. }
  assert (Hlo : 0 <= Qfloor (r * inject_Z n)).
  { change 0 with (Qfloor 0). apply Qfloor_resp_le.
    apply Qmult_le_0_compat; [done|]. by apply Qlt_le_weak. }
  assert (Hhi : Qfloor (r * inject_Z n) < n).
  { rewrite Zlt_Qlt. eapply Qle_lt_trans; [apply Qfloor_le|].
    rewrite <- (Qmult_1_l (inject_Z n)) at 2.
    by apply Qmult_lt_compat_r. }
  lia.
Qed.

Lemma thirds_range n : (0 <= thirds n)%Q /\ (thirds n < 1)%Q.
Proof.
  unfold thirds, Qle, Qlt. simpl.
  pose proof (Nat.mod_upper_bound n 3). lia.
Qed.

Section Randomized.

Variable random : nat -> Q.
Hypothesis random_range : forall n, (0 <= random n)%Q /\ (random n < 1)%Q.

Lemma randomizedQuickSort_spec fuel :
  forall calls arr low high,
    0 <= low -> high < len arr -> high - low <= Z.of_nat fuel ->
    exists arr' calls',
      randomizedQuickSort random fuel calls arr low high
        = Ok (arr', calls') /\
      rearranged low high arr arr' /\ sorted_range low high arr'.
Proof.
  induction fuel as [|fuel IH]; intros calls arr low high H0 Hh Hfuel.
  - simpl. destruct (Z.ltb_spec low high); [lia|].
    exists arr, calls. split; [done|]. split; [apply rearranged_refl|].
    intros k ? ?. lia.
  - cbn [randomizedQuickSort].
    destruct (Z.ltb_spec low high) as [Hlt|Hge].
    2:{ exists arr, calls. split; [done|]. split; [apply rearranged_refl|].
        intros k ? ?. lia. }
    destruct (random_range calls) as [Hr0 Hr1].
    pose proof (randomIndex_range (random calls) low high Hr0 Hr1) as Hri.
    set (ri := randomIndex (random calls) low high) in *.
    rewrite swap_ok by lia. cbn [bind].
    pose proof (rearranged_swapped low high arr ri high) as Hr0'.
    pose proof (swapped_len arr ri high) as Hlen0.
    set (a0 := swapped arr ri high) in *.
    destruct (partition_spec (S fuel) a0 low high)
      as (p & a1 & Hrun & Hp & Hr1' & Hpiv & Hle & Hgt); try lia.
    rewrite Hrun. cbn [bind].
    pose proof (rearranged_len _ _ _ _ Hr1') as Hlen1.
    destruct (IH (S calls) a1 low (p - 1))
      as (a2 & c2 & Hrun2 & Hr2 & Hs2); try lia.
    rewrite Hrun2. cbn [bind].
    pose proof (rearranged_len _ _ _ _ Hr2) as Hlen2.
    destruct (IH c2 a2 (p + 1) high)
      as (a3 & c3 & Hrun3 & Hr3 & Hs3); try lia.
    rewrite Hrun3. exists a3, c3. split; [done|].
    destruct (sorted_around_pivot low high p p (elt a0 high) a1 a2 a3)
      as [Hr Hs]; try done; try lia.
    + intros k Hk. by replace k with p by lia.
    + intros k Hk. apply Z.lt_le_incl, Hgt. lia.
    + split; [|done].
      apply (rearranged_trans low high arr a0 a3); [apply Hr0'; lia|].
      by apply (rearranged_trans low high a0 a1 a3).
Qed.

End Randomized.

(** ** The median-of-three sort *)

Lemma swap_if_spec (c : bool) low high arr i j :
  0 <= i < len arr -> 0 <= j < len arr ->
  low <= i <= high -> low <= j <= high ->
  exists arr',
    (if c then swap arr i j else Ok arr) = Ok arr' /\
    rearranged low high arr arr'.
Proof.
  intros Hi Hj Hil Hjl. destruct c.
  - rewrite swap_ok by done. eexists. split; [done|].
    by apply rearranged_swapped.
  - exists arr. split; [done|apply rearranged_refl].
Qed.

Lemma mid_range low high : low <= high -> low <= (low + high) / 2 <= high.
Proof.
  intros H. split.
  - apply Z.div_le_lower_bound; lia.
  - apply Z.div_le_upper_bound; lia.
Qed.

Lemma medianOfThree_spec arr low high :
  0 <= low -> low <= high -> high < len arr ->
  exists arr',
    medianOfThree arr low high = Ok ((low + high) / 2, arr') /\
    rearranged low high arr arr'.
Proof.
  intros H0 Hlh Hh. unfold medianOfThree.
  pose proof (mid_range low high Hlh) as Hmid.
  set (mid := (low + high) / 2) in *.
  rewrite !get_ok by lia. cbn [bind].
  destruct (swap_if_spec (elt arr mid <? elt arr low) low high arr low mid)
    as (a1 & -> & Hr1); try lia.
  pose proof (rearranged_len _ _ _ _ Hr1) as Hlen1. cbn [bind].
  rewrite !get_ok by lia. cbn [bind].
  destruct (swap_if_spec (elt a1 high <? elt a1 low) low high a1 low high)
    as (a2 & -> & Hr2); try lia.
  pose proof (rearranged_len _ _ _ _ Hr2) as Hlen2. cbn [bind].
  rewrite !get_ok by lia. cbn [bind].
  destruct (swap_if_spec (elt a2 high <? elt a2 mid) low high a2 mid high)
    as (a3 & -> & Hr3); try lia.
  cbn [bind]. exists a3. split; [done|].
  apply (rearranged_trans low high arr a1 a3); [done|].
  by apply (rearranged_trans low high a1 a2 a3).
Qed.

Lemma medianOfThreeQuickSort_spec fuel :
  forall arr low high,
    0 <= low -> high < len arr -> high - low <= Z.of_nat fuel ->
    exists arr',
      medianOfThreeQuickSort fuel arr low high = Ok arr' /\
      rearranged low high arr arr' /\ sorted_range low high arr'.
Proof.
  induction fuel as [|fuel IH]; intros arr low high H0 Hh Hfuel.
  - simpl. destruct (Z.ltb_spec low high); [lia|].
    exists arr. split; [done|]. split; [apply rearranged_refl|].
    intros k ? ?. lia.
  - cbn [medianOfThreeQuickSort].
    destruct (Z.ltb_spec low high) as [Hlt|Hge].
    2:{ exists arr. split; [done|]. split; [apply rearranged_refl|].
        intros k ? ?. lia. }
    destruct (medianOfThree_spec arr low high) as (am & -> & Hrm); try lia.
    cbn [bind]. pose proof (rearranged_len _ _ _ _ Hrm) as Hlenm.
    pose proof (mid_range low high ltac:(lia)) as Hmid.
    set (mid := (low + high) / 2) in *.
    rewrite swap_ok by lia. cbn [bind].
    pose proof (rearranged_swapped low high am mid high) as Hr0.
    pose proof (swapped_len am mid high) as Hlen0.
    set (a0 := swapped am mid high) in *.
    destruct (partition_spec (S fuel) a0 low high)
      as (p & a1 & Hrun & Hp & Hr1 & Hpiv & Hle & Hgt); try lia.
    rewrite Hrun. cbn [bind].
    pose proof (rearranged_len _ _ _ _ Hr1) as Hlen1.
    destruct (IH a1 low (p - 1)) as (a2 & Hrun2 & Hr2 & Hs2); try lia.
    rewrite Hrun2. cbn [bind].
    pose proof (rearranged_len _ _ _ _ Hr2) as Hlen2.
    destruct (IH a2 (p + 1) high) as (a3 & Hrun3 & Hr3 & Hs3); try lia.
    rewrite Hrun3. exists a3. split; [done|].
    destruct (sorted_around_pivot low high p p (elt a0 high) a1 a2 a3)
      as [Hr Hs]; try done; try lia.
    + intros k Hk. by replace k with p by lia.
    + intros k Hk. apply Z.lt_le_incl, Hgt. lia.
    + split; [|done].
      apply (rearranged_trans low high arr am a3); [done|].
      apply (rearranged_trans low high am a0 a3); [apply Hr0; lia|].
      by apply (rearranged_trans low high a0 a1 a3).
Qed.

(** ** The three-way partition and sort *)

Lemma threeWay_loop_spec fuel low high pivot :
  forall arr lt i gt,
    0 <= low -> high < len arr ->
    low <= lt -> lt < i -> i <= gt + 1 -> gt <= high ->
    (forall k, low <= k < lt -> elt arr k < pivot) ->
    (forall k, lt <= k < i -> elt arr k = pivot) ->
    (forall k, gt < k <= high -> pivot < elt arr k) ->
    gt - i + 1 <= Z.of_nat fuel ->
    exists lt' gt' arr',
      threeWay_loop fuel arr pivot lt i gt = Ok (lt', gt', arr') /\
      low <= lt' /\ lt' <= gt' /\ gt' <= high /\
      rearranged low high arr arr' /\
      (forall k, low <= k < lt' -> elt arr' k < pivot) /\
      (forall k, lt' <= k <= gt' -> elt arr' k = pivot) /\
      (forall k, gt' < k <= high -> pivot < elt arr' k).
Proof.
  induction fuel as [|fuel IH];
    intros arr lt i gt H0 Hh Hl Hli Hig Hg Hlt Heq Hgt Hfuel.
  - assert (i = gt + 1) as -> by lia. simpl.
    destruct (Z.leb_spec (gt + 1) gt); [lia|].
    exists lt, gt, arr. split; [done|]. repeat (split; [lia|]).
    split; [apply rearranged_refl|]. repeat split; try done.
    intros k Hk. apply Heq. lia.
  - cbn [threeWay_loop]. destruct (Z.leb_spec i gt) as [Hle|Hnle].
    2:{ assert (i = gt + 1) as -> by lia.
        exists lt, gt, arr. split; [done|]. repeat (split; [lia|]).
        split; [apply rearranged_refl|]. repeat split; try done.
        intros k Hk. apply Heq. lia. }
    rewrite get_ok by lia. cbn [bind].
    destruct (Z.ltb_spec (elt arr i) pivot) as [Hv|Hv].
    + rewrite swap_ok by lia. cbn [bind].
      pose proof (rearranged_swapped low high arr lt i) as Hsw.
      destruct (IH (swapped arr lt i) (lt + 1) (i + 1) gt)
        as (lt' & gt' & arr' & Hrun & ? & ? & ? & Hre & ? & ? & ?);
        rewrite ?swapped_len; try lia.
      * intros k Hk. swapped_cases.
      * intros k Hk. swapped_cases.
      * intros k Hk. swapped_cases.
      * exists lt', gt', arr'. split; [done|]. repeat (split; [lia|]).
        split; [|done].
        apply (rearranged_trans low high arr (swapped arr lt i) arr');
          [apply Hsw; lia|done].
    + destruct (Z.gtb_spec (elt arr i) pivot) as [Hw|Hw].
      * rewrite swap_ok by lia. cbn [bind].
        pose proof (rearranged_swapped low high arr i gt) as Hsw.
        destruct (IH (swapped arr i gt) lt i (gt - 1))
          as (lt' & gt' & arr' & Hrun & ? & ? & ? & Hre & ? & ? & ?);
          rewrite ?swapped_len; try lia.
        -- intros k Hk. swapped_cases.
        -- intros k Hk. swapped_cases.
        -- intros k Hk. swapped_cases.
        -- exists lt', gt', arr'. split; [done|]. repeat (split; [lia|]).
           split; [|done].
           apply (rearranged_trans low high arr (swapped arr i gt) arr');
             [apply Hsw; lia|done].
      * destruct (IH arr lt (i + 1) gt)
          as (lt' & gt' & arr' & Hrun & ? & ? & ? & Hre & ? & ? & ?);
          try lia; try done.
        -- intros k Hk. destruct (Z.eq_dec k i) as [->|]; [lia|].
           apply Heq. lia.
        -- exists lt', gt', arr'. done.
Qed.

Lemma threeWay_loop_all_equal fuel pivot :
  forall arr lt i gt,
    0 <= i -> gt < len arr ->
    (forall k, i <= k <= gt -> elt arr k = pivot) ->
    gt - i + 1 <= Z.of_nat fuel ->
    threeWay_loop fuel arr pivot lt i gt = Ok (lt, gt, arr).
Proof.
  induction fuel as [|fuel IH]; intros arr lt i gt H0 Hg Heq Hfuel.
  - simpl. destruct (Z.leb_spec i gt); [lia|done].
  - cbn [threeWay_loop]. destruct (Z.leb_spec i gt) as [Hle|Hnle]; [|done].
    rewrite get_ok by lia. cbn [bind]. rewrite (Heq i) by lia.
    rewrite Z.ltb_irrefl. rewrite Z.gtb_ltb, Z.ltb_irrefl.
    apply IH; try lia. intros k Hk. apply Heq. lia.
Qed.

Lemma threeWayPartition_spec fuel arr low high :
  0 <= low -> low <= high -> high < len arr -> high - low <= Z.of_nat fuel ->
  exists lt gt arr',
    threeWayPartition fuel arr low high = Ok (lt, gt, arr') /\
    low <= lt /\ lt <= gt /\ gt <= high /\
    rearranged low high arr arr' /\
    (forall k, low <= k < lt -> elt arr' k < elt arr low) /\
    (forall k, lt <= k <= gt -> elt arr' k = elt arr low) /\
    (forall k, gt < k <= high -> elt arr low < elt arr' k).
Proof.
  intros H0 Hlh Hh Hfuel. unfold threeWayPartition.
  rewrite get_ok by lia. cbn [bind].
  apply threeWay_loop_spec; try lia.
  intros k Hk. by replace k with low by lia.
Qed.

Lemma threeWayQuickSort_spec fuel :
  forall arr low high,
    0 <= low -> high < len arr -> high - low <= Z.of_nat fuel ->
    exists arr',
      threeWayQuickSort fuel arr low high = Ok arr' /\
      rearranged low high arr arr' /\ sorted_range low high arr'.
Proof.
  induction fuel as [|fuel IH]; intros arr low high H0 Hh Hfuel.
  - simpl. destruct (Z.ltb_spec low high); [lia|].
    exists arr. split; [done|]. split; [apply rearranged_refl|].
    intros k ? ?. lia.
  - cbn [threeWayQuickSort]. destruct (Z.ltb_spec low high) as [Hlt|Hge].
    2:{ exists arr. split; [done|]. split; [apply rearranged_refl|].
        intros k ? ?. lia. }
    destruct (threeWayPartition_spec (S fuel) arr low high)
      as (lt & gt & a1 & Hrun & Hl & Hlg & Hg & Hr1 & Hlo & Heq & Hhi);
      try lia.
    rewrite Hrun. cbn [bind].
    pose proof (rearranged_len _ _ _ _ Hr1) as Hlen1.
    destruct (IH a1 low (lt - 1)) as (a2 & Hrun2 & Hr2 & Hs2); try lia.
    rewrite Hrun2. cbn [bind].
    pose proof (rearranged_len _ _ _ _ Hr2) as Hlen2.
    destruct (IH a2 (gt + 1) high) as (a3 & Hrun3 & Hr3 & Hs3); try lia.
    rewrite Hrun3. exists a3. split; [done|].
    destruct (sorted_around_pivot low high lt gt (elt arr low) a1 a2 a3)
      as [Hr Hs]; try done; try lia.
    + intros k Hk. apply Z.lt_le_incl, Hlo. lia.
    + intros k Hk. apply Z.lt_le_incl, Hhi. lia.
    + split; [|done]. by apply (rearranged_trans low high arr a1 a3).
Qed.

(** ** The iterative sort

    The stack holds pending ranges, the top first.  The loop pops the right
    part [[pivotIndex + 1, high]] before the left part, so the ranges are
    sorted in another order than in [quickSort]. *)

Lemma sorted_around_pivot_rev low high p v a1 a2 a3 :
  0 <= low -> high < len a1 -> low <= p -> p <= high ->
  (forall k, low <= k < p -> elt a1 k <= v) ->
  elt a1 p = v ->
  (forall k, p < k <= high -> v <= elt a1 k) ->
  rearranged (p + 1) high a1 a2 -> sorted_range (p + 1) high a2 ->
  rearranged low (p - 1) a2 a3 -> sorted_range low (p - 1) a3 ->
  rearranged low high a1 a3 /\ sorted_range low high a3.
Proof.
  intros H0 Hh Hl Hg Hle Heq Hge Hr12 Hs2 Hr23 Hs3.
  pose proof (rearranged_len _ _ _ _ Hr12) as Hlen2.
  pose proof (rearranged_len _ _ _ _ Hr23) as Hlen3.
  assert (Hge2 : forall k, p + 1 <= k <= high -> v <= elt a2 k).
  { apply (rearranged_all (fun x => v <= x) (p + 1) high a1); try done; try lia.
    intros k Hk. apply Hge. lia. }
  assert (Hle2 : forall k, low <= k <= p - 1 -> elt a2 k <= v).
  { intros k Hk. destruct Hr12 as [_ Ho]. rewrite Ho by lia. apply Hle. lia. }
  assert (Hle3 : forall k, low <= k <= p - 1 -> elt a3 k <= v).
  { apply (rearranged_all (fun x => x <= v) low (p - 1) a2); try done; lia. }
  assert (H32 : forall k, p <= k <= high -> elt a3 k = elt a2 k).
  { intros k Hk. destruct Hr23 as [_ Ho]. apply Ho; lia. }
  assert (H21 : elt a2 p = elt a1 p).
  { destruct Hr12 as [_ Ho]. apply Ho; lia. }
  split.
  - apply (rearranged_trans low high a1 a2 a3).
    + apply (rearranged_widen (p + 1) high); [lia|lia|done].
    + apply (rearranged_widen low (p - 1)); [lia|lia|done].
  - intros k Hk1 Hk2.
    destruct (Z.lt_trichotomy (k + 1) p) as [Hc|[Hc|Hc]].
    + apply Hs3; lia.
    + rewrite (H32 (k + 1)), Hc, H21, Heq by lia. apply Hle3. lia.
    + destruct (Z.eq_dec k p) as [->|Hd].
      * rewrite !H32, H21, Heq by lia. apply Hge2. lia.
      * rewrite !H32 by lia. apply Hs2; lia.
Qed.

Lemma stack_cost_nonneg rs : 0 <= stack_cost rs.
Proof. induction rs as [|[l h] rs IH]; simpl; lia. Qed.

Lemma iterative_loop_spec fuel :
  forall arr rs,
    ranges_within (len arr) rs -> stack_cost rs <= Z.of_nat fuel ->
    exists arr',
      iterative_loop fuel arr (stack_of rs) = Ok arr' /\
      sorted_in_turn rs arr arr'.
Proof.
  induction fuel as [|fuel IH]; intros arr rs Hin Hfuel.
  - destruct rs as [|[low high] rs].
    + exists arr. by destruct arr.
    + pose proof (stack_cost_nonneg rs). simpl in Hfuel. lia.
  - destruct rs as [|[low high] rs]; [by exists arr|].
    pose proof (stack_cost_nonneg rs) as Hc.
    apply Forall_cons in Hin as [[H0 Hh] Hin]. simpl in H0, Hh.
    cbn [stack_of stack_cost] in *. cbn [iterative_loop].
    destruct (Z.ltb_spec low high) as [Hlt|Hge].
    + destruct (partition_spec (S fuel) arr low high)
        as (p & a1 & Hrun & Hp & Hr1 & Hpiv & Hle & Hgt); try lia.
      rewrite Hrun. cbn [bind].
      pose proof (rearranged_len _ _ _ _ Hr1) as Hlen1.
      destruct (IH a1 ((p + 1, high) :: (low, p - 1) :: rs))
        as (a' & Hrun' & a2 & [Hr2 Hs2] & a3 & [Hr3 Hs3] & Hrest).
      * rewrite Hlen1. apply Forall_cons_2; [simpl; lia|].
        apply Forall_cons_2; [simpl; lia|done].
      * cbn [stack_cost]. lia.
      * exists a'. split; [exact Hrun'|]. exists a3. split; [|done].
        destruct (sorted_around_pivot_rev low high p (elt arr high) a1 a2 a3)
          as [Hr Hs]; try done; try lia.
        -- intros k Hk. apply Z.lt_le_incl, Hgt. lia.
        -- split; [|done]. by apply (rearranged_trans low high arr a1 a3).
    + destruct (IH arr rs) as (a' & Hrun' & Hrest); [done|lia|].
      exists a'. split; [exact Hrun'|]. exists arr. split; [|done].
      split; [apply rearranged_refl|]. intros k ? ?. lia.
Qed.

Lemma iterativeQuickSort_spec fuel arr :
  2 * len arr + 1 <= Z.of_nat fuel ->
  exists arr',
    iterativeQuickSort fuel arr = Ok arr' /\
    rearranged 0 (len arr - 1) arr arr' /\ sorted_range 0 (len arr - 1) arr'.
Proof.
  intros Hfuel. pose proof (len_nonneg arr) as Hn.
  destruct (iterative_loop_spec fuel arr [(0, len arr - 1)])
    as (a' & Hrun & a1 & Hs & ->).
  - apply Forall_cons_2; [simpl; lia|apply Forall_nil_2].
  - cbn [stack_cost]. lia.
  - exists a1. split; [exact Hrun|done].
Qed.

(** ** The Hoare partition *)

(** The upward scan stops at the latest at an index [s] that holds an
    element [>= pivot]. *)
Lemma scan_up_spec fuel low high arr pivot s :
  forall log i,
    low - 1 <= i -> i < s -> s <= high -> 0 <= low -> high < len arr ->
    pivot <= elt arr s -> log_within low high log ->
    s - i <= Z.of_nat fuel ->
    exists i' log',
      scan_up fuel (arr, log) pivot i = Ok (i', (arr, log')) /\
      i < i' /\ i' <= s /\ pivot <= elt arr i' /\
      (forall k, i < k < i' -> elt arr k < pivot) /\
      log_within low high log'.
Proof.
  induction fuel as [|fuel IH]; intros log i Hi His Hs H0 Hh Hp Hlog Hfuel;
    [lia|].
  cbn [scan_up]. unfold get_t. cbn [fst snd].
  rewrite get_ok by lia. cbn [bind].
  assert (Hlog' : log_within low high ((i + 1) :: log)).
  { apply Forall_cons_2; [lia|done]. }
  destruct (Z.ltb_spec (elt arr (i + 1)) pivot) as [Hv|Hv].
  - destruct (Z.eq_dec (i + 1) s) as [E|E]; [rewrite E in Hv; lia|].
    destruct (IH ((i + 1) :: log) (i + 1))
      as (i' & log' & Hrun & ? & ? & ? & Hbelow & ?); try done; try lia.
    exists i', log'. repeat split; try done; try lia. intros k Hk.
    destruct (Z.eq_dec k (i + 1)) as [->|]; [done|]. apply Hbelow. lia.
  - exists (i + 1), ((i + 1) :: log). repeat split; try done; try lia.
Qed.

(** The downward scan stops at the latest at an index [s] that holds an
    element [<= pivot]. *)
Lemma scan_down_spec fuel low high arr pivot s :
  forall log j,
    j <= high + 1 -> s < j -> low <= s -> 0 <= low -> high < len arr ->
    elt arr s <= pivot -> log_within low high log ->
    j - s <= Z.of_nat fuel ->
    exists j' log',
      scan_down fuel (arr, log) pivot j = Ok (j', (arr, log')) /\
      j' < j /\ s <= j' /\ elt arr j' <= pivot /\
      (forall k, j' < k < j -> pivot < elt arr k) /\
      log_within low high log'.
Proof.
  induction fuel as [|fuel IH]; intros log j Hj Hsj Hs H0 Hh Hp Hlog Hfuel;
    [lia|].
  cbn [scan_down]. unfold get_t. cbn [fst snd].
  rewrite get_ok by lia. cbn [bind].
  assert (Hlog' : log_within low high ((j - 1) :: log)).
  { apply Forall_cons_2; [lia|done]. }
  destruct (Z.gtb_spec (elt arr (j - 1)) pivot) as [Hv|Hv].
  - destruct (Z.eq_dec (j - 1) s) as [E|E]; [rewrite E in Hv; lia|].
    destruct (IH ((j - 1) :: log) (j - 1))
      as (j' & log' & Hrun & ? & ? & ? & Habove & ?); try done; try lia.
    exists j', log'. repeat split; try done; try lia. intros k Hk.
    destruct (Z.eq_dec k (j - 1)) as [->|]; [lia|]. apply Habove. lia.
  - exists (j - 1), ((j - 1) :: log). repeat split; try done; try lia.
Qed.

Lemma hoare_loop_spec fuel low high pivot :
  forall arr log i j su sd,
    0 <= low -> high < len arr ->
    low - 1 <= i -> i < su -> su <= j -> su <= high ->
    low <= sd -> i <= sd -> sd < j -> j <= high + 1 ->
    pivot <= elt arr su -> elt arr sd <= pivot ->
    j <= high \/ su <= low ->
    (forall k, low <= k <= i -> elt arr k <= pivot) ->
    (forall k, j <= k <= high -> pivot <= elt arr k) ->
    log_within low high log ->
    j - i <= Z.of_nat fuel ->
    exists jr arr' log',
      hoare_loop fuel (arr, log) pivot i j = Ok (jr, (arr', log')) /\
      low <= jr <= high /\ (low < high -> jr < high) /\
      rearranged low high arr arr' /\
      (forall k, low <= k <= jr -> elt arr' k <= pivot) /\
      (forall k, jr < k <= high -> pivot <= elt arr' k) /\
      log_within low high log'.
Proof.
  induction fuel as [|fuel IH];
    intros arr log i j su sd H0 Hh Hi Hisu Hsuj Hsuh Hsd Hisd Hsdj Hj
      Hsu Hsdv Hfirst Hle Hge Hlog Hfuel; [lia|].
  cbn [hoare_loop].
  destruct (scan_up_spec (S fuel) low high arr pivot su log i)
    as (i' & log1 & -> & Hii' & Hi'su & Hvi' & Hbelow & Hlog1);
    try done; try lia.
  cbn [bind].
  destruct (scan_down_spec (S fuel) low high arr pivot sd log1 j)
    as (j' & log2 & -> & Hj'j & Hsdj' & Hvj' & Habove & Hlog2);
    try done; try lia.
  cbn [bind].
  destruct (Z.geb_spec i' j') as [Hret|Hcont].
  - exists j', arr, log2. split; [done|]. split; [lia|]. split; [lia|].
    split; [apply rearranged_refl|]. split; [|split; [|done]].
    + intros k Hk. destruct (Z_le_gt_dec k i); [apply Hle; lia|].
      destruct (Z.eq_dec k j') as [->|]; [done|].
      apply Z.lt_le_incl, Hbelow. lia.
    + intros k Hk. destruct (Z_le_gt_dec j k); [apply Hge; lia|].
      apply Z.lt_le_incl, Habove. lia.
  - unfold swap_t. cbn [fst snd]. rewrite swap_ok by lia. cbn [bind].
    pose proof (rearranged_swapped low high arr i' j') as Hsw.
    destruct (IH (swapped arr i' j') (j' :: i' :: i' :: j' :: log2)
                i' j' j' i')
      as (jr & arr' & log' & Hrun & ? & ? & Hre & ? & ? & ?);
      rewrite ?swapped_len; try lia.
    + swapped_cases.
    + swapped_cases.
    + intros k Hk. swapped_cases.
      destruct (Z_le_gt_dec k i); [apply Hle; lia|].
      apply Z.lt_le_incl, Hbelow. lia.
    + intros k Hk. swapped_cases.
      destruct (Z_le_gt_dec j k); [apply Hge; lia|].
      apply Z.lt_le_incl, Habove. lia.
    + repeat (apply Forall_cons_2; [lia|]). done.
    + exists jr, arr', log'. split; [done|]. split; [lia|].
      split; [done|]. split; [|done].
      apply (rearranged_trans low high arr (swapped arr i' j') arr');
        [apply Hsw; lia|done].
Qed.

Lemma hoarePartition_traced_spec fuel arr low high :
  0 <= low -> low <= high -> high < len arr ->
  high - low + 2 <= Z.of_nat fuel ->
  exists j arr' log,
    hoarePartition_traced fuel arr low high = Ok (j, (arr', log)) /\
    low <= j <= high /\ (low < high -> j < high) /\
    rearranged low high arr arr' /\
    (forall k, low <= k <= j -> elt arr' k <= elt arr low) /\
    (forall k, j < k <= high -> elt arr low <= elt arr' k) /\
    log_within low high log.
Proof.
  intros H0 Hlh Hh Hfuel. unfold hoarePartition_traced, get_t.
  cbn [fst snd]. rewrite get_ok by lia. cbn [bind].
  apply (hoare_loop_spec fuel low high (elt arr low) arr [low]
           (low - 1) (high + 1) low low); try lia.
  apply Forall_cons_2; [lia|apply Forall_nil_2].
Qed.

Lemma hoarePartition_spec fuel arr low high :
  0 <= low -> low <= high -> high < len arr ->
  high - low + 2 <= Z.of_nat fuel ->
  exists j arr',
    hoarePartition fuel arr low high = Ok (j, arr') /\
    low <= j <= high /\ (low < high -> j < high) /\
    rearranged low high arr arr' /\
    (forall k, low <= k <= j -> elt arr' k <= elt arr low) /\
    (forall k, j < k <= high -> elt arr low <= elt arr' k).
Proof.
  intros H0 Hlh Hh Hfuel. unfold hoarePartition.
  destruct (hoarePartition_traced_spec fuel arr low high)
    as (j & arr' & log & -> & ? & ? & ? & ? & ? & _); try done.
  cbn [bind fst]. by exists j, arr'.
Qed.

(** ** Sorted sequences *)

Lemma get_cons_succ x arr k : 0 <= k -> get (x :: arr) (k + 1) = get arr k.
Proof.
  intros Hk. unfold get.
  destruct (Z.ltb_spec (k + 1) 0); [lia|]. destruct (Z.ltb_spec k 0); [lia|].
  replace (Z.to_nat (k + 1)) with (S (Z.to_nat k)) by lia. done.
Qed.

Lemma nondescending_tail x arr : nondescending (x :: arr) -> nondescending arr.
Proof.
  intros H k a b Ha Hb. pose proof (get_Ok_inv _ _ _ Ha) as [Hk _].
  apply (H (k + 1)); by rewrite get_cons_succ by lia.
Qed.

Lemma nondescending_Sorted arr : nondescending arr -> Sorted Z.le arr.
Proof.
  induction arr as [|x arr IH]; intros H; [constructor|].
  constructor; [eapply IH, nondescending_tail, H|].
  destruct arr as [|y arr]; constructor. by apply (H 0).
Qed.

Lemma sorted_range_nondescending arr :
  sorted_range 0 (len arr - 1) arr -> nondescending arr.
Proof.
  intros H k x y Hx Hy.
  apply get_Ok_inv in Hx as [Hk ->]. apply get_Ok_inv in Hy as [Hk' ->].
  apply H; lia.
Qed.

Lemma sorted_range_slice_nondescending arr low high :
  0 <= low -> low <= high + 1 -> high < len arr ->
  sorted_range low high arr -> nondescending (slice arr low high).
Proof.
  intros H0 Hlh Hh Hs k x y Hx Hy.
  apply get_Ok_inv in Hx as [Hk ->]. apply get_Ok_inv in Hy as [Hk' ->].
  unfold len in Hk, Hk'. rewrite slice_length in Hk, Hk' by done.
  rewrite !elt_slice by lia. replace (low + (k + 1)) with (low + k + 1) by lia.
  apply Hs; lia.
Qed.

Lemma sorted_range_slice arr low high :
  0 <= low -> low <= high + 1 -> high < len arr ->
  sorted_range low high arr -> Sorted Z.le (slice arr low high).
Proof.
  intros. by apply nondescending_Sorted, sorted_range_slice_nondescending.
Qed.

Lemma sorted_permutation_unique a b :
  nondescending a -> nondescending b -> a ≡ₚ b -> a = b.
Proof.
  intros Ha Hb Hp. apply (Sorted_unique Z.le); [| |done];
    by apply nondescending_Sorted.
Qed.

(** Sorting a range of an array has one outcome. *)
Lemma rearranged_sorted_unique low high arr b1 b2 :
  0 <= low -> high < len arr ->
  rearranged low high arr b1 -> sorted_range low high b1 ->
  rearranged low high arr b2 -> sorted_range low high b2 ->
  b1 = b2.
Proof.
  intros H0 Hh Hr1 Hs1 Hr2 Hs2.
  pose proof (rearranged_len _ _ _ _ Hr1) as Hlen1.
  pose proof (rearranged_len _ _ _ _ Hr2) as Hlen2.
  apply list_eq. intros n.
  destruct (decide (low <= Z.of_nat n <= high)) as [Hn|Hn].
  - assert (Hsl : slice b1 low high = slice b2 low high).
    { apply (Sorted_unique Z.le).
      - apply sorted_range_slice; try done; lia.
      - apply sorted_range_slice; try done; lia.
      - rewrite (rearranged_slice low high arr b1) by (done || lia).
        by rewrite (rearranged_slice low high arr b2) by (done || lia). }
    pose proof (elt_lookup b1 (Z.of_nat n)) as E1.
    pose proof (elt_lookup b2 (Z.of_nat n)) as E2.
    rewrite Nat2Z.id in E1, E2. rewrite E1, E2 by lia. f_equal.
    replace (Z.of_nat n) with (low + (Z.of_nat n - low)) by lia.
    rewrite <- !(elt_slice _ low high) by lia. by rewrite Hsl.
  - destruct Hr1 as [_ Ho1], Hr2 as [_ Ho2].
    rewrite (same_outside_lookup low high arr b1) by (done || lia).
    by rewrite (same_outside_lookup low high arr b2) by (done || lia).
Qed.

(** A non-descending array passes the module's own check, and only such an
    array does. *)
Lemma isSorted_loop_spec fuel arr :
  forall i,
    1 <= i -> len arr - i <= Z.of_nat fuel ->
    (forall k, 0 <= k -> k + 1 < i -> elt arr k <= elt arr (k + 1)) ->
    exists b,
      isSorted_loop fuel arr i = Ok b /\
      (b = true <-> nondescending arr).
Proof.
  induction fuel as [|fuel IH]; intros i Hi Hfuel Hbelow.
  - simpl. destruct (Z.ltb_spec i (len arr)); [lia|].
    exists true. split; [done|]. split; [|done]. intros _ k x y Hx Hy.
    apply get_Ok_inv in Hx as [Hk ->]. apply get_Ok_inv in Hy as [Hk' ->].
    apply Hbelow; lia.
  - cbn [isSorted_loop]. destruct (Z.ltb_spec i (len arr)) as [Hlt|Hge].
    2:{ exists true. split; [done|]. split; [|done]. intros _ k x y Hx Hy.
        apply get_Ok_inv in Hx as [Hk ->]. apply get_Ok_inv in Hy as [Hk' ->].
        apply Hbelow; lia. }
    rewrite !get_ok by lia. cbn [bind].
    destruct (Z.ltb_spec (elt arr i) (elt arr (i - 1))) as [Hv|Hv].
    + exists false. split; [done|]. split; [done|]. intros Hnd.
      pose proof (Hnd (i - 1) (elt arr (i - 1)) (elt arr i)) as H.
      replace (i - 1 + 1) with i in H by lia.
      rewrite !get_ok in H by lia. specialize (H eq_refl eq_refl). lia.
    + apply IH; try lia. intros k Hk Hk'.
      destruct (Z.eq_dec (k + 1) i) as [E|E]; [|apply Hbelow; lia].
      replace k with (i - 1) by lia. by replace (i - 1 + 1) with i by lia.
Qed.

Lemma isSorted_spec fuel arr :
  len arr - 1 <= Z.of_nat fuel ->
  exists b, isSorted fuel arr = Ok b /\ (b = true <-> nondescending arr).
Proof.
  intros Hfuel. apply isSorted_loop_spec; try lia.
Qed.

(** In a sorted arrangement of [L ++ v :: R], where [L] lies below [v] and
    [R] above, [v] comes right after [length L] elements. *)
Lemma pivot_final_position (L R s : list Z) v :
  Forall (fun x => x <= v) L -> Forall (fun x => v <= x) R ->
  Sorted Z.le s -> s ≡ₚ L ++ v :: R ->
  s !! length L = Some v.
Proof.
  intros HL HR Hs Hp.
  set (s' := merge_sort Z.le L ++ v :: merge_sort Z.le R).
  assert (Hp' : s' ≡ₚ L ++ v :: R).
  { unfold s'. by rewrite !merge_sort_Permutation. }
  assert (Hs' : StronglySorted Z.le s').
  { unfold s'. apply StronglySorted_app. split; [|split].
    - intros x1 x2 Hx1 Hx2. rewrite merge_sort_Permutation in Hx1.
      rewrite Forall_forall in HL. apply HL in Hx1.
      apply elem_of_cons in Hx2 as [->|Hx2]; [done|].
      rewrite merge_sort_Permutation in Hx2.
      rewrite Forall_forall in HR. apply HR in Hx2. lia.
    - apply (StronglySorted_merge_sort Z.le).
    - constructor; [apply (StronglySorted_merge_sort Z.le)|].
      by rewrite merge_sort_Permutation. }
  assert (s = s') as ->.
  { apply (StronglySorted_unique Z.le); [|done|by rewrite Hp, Hp'].
    by apply Sorted_StronglySorted; [apply _|]. }
  unfold s'. rewrite lookup_app_r; rewrite merge_sort_Permutation; [|done].
  by rewrite Nat.sub_diag.
Qed.

Lemma slice_app arr low m high :
  0 <= low -> low <= m -> m <= high + 1 ->
  slice arr low high = slice arr low (m - 1) ++ slice arr m high.
Proof.
  intros H0 Hlm Hmh. unfold slice.
  replace (Z.to_nat (high - low + 1))
    with (Z.to_nat (m - 1 - low + 1) + Z.to_nat (high - m + 1))%nat by lia.
  rewrite <- take_take_drop, drop_drop. do 3 f_equal. lia.
Qed.

Lemma slice_singleton arr k :
  0 <= k < len arr -> slice arr k k = [elt arr k].
Proof.
  intros Hk. unfold slice. replace (Z.to_nat (k - k + 1)) with 1%nat by lia.
  destruct (drop (Z.to_nat k) arr) as [|x l] eqn:Ed.
  - apply (f_equal length) in Ed. rewrite length_drop in Ed.
    unfold len in Hk. simpl in Ed. lia.
  - simpl. f_equal.
    assert (E' : drop (Z.to_nat k) arr !! 0%nat = Some (elt arr k)).
    { rewrite lookup_drop, Nat.add_0_r. by apply elt_lookup. }
    rewrite Ed in E'. by injection E'.
Qed.

(** * The specified properties *)

(** ** C2: the Lomuto partition *)

(** C2. For [0 <= low <= high < arr.length], [partition(arr, low, high)]
    returns an index [p] with [low <= p <= high]; afterwards [arr[p]] is the
    pivot (the original [arr[high]]), every element at an index in
    [[low, p-1]] is [<=] the pivot, every element at an index in [[p, high]]
    is [>=] the pivot, the range holds a permutation of its original
    contents, and the pivot is at its final sorted position: every sorted
    arrangement of the range has the pivot at offset [p - low]. *)
Theorem partition_lomuto_correct (fuel : nat) (arr : list Z) (low high : Z) :
  0 <= low -> low <= high -> high < len arr ->
  high - low <= Z.of_nat fuel ->
  exists p arr',
    partition fuel arr low high = Ok (p, arr') /\
    low <= p <= high /\
    get arr' p = get arr high /\
    (forall k, low <= k <= p - 1 -> elt arr' k <= elt arr high) /\
    (forall k, p <= k <= high -> elt arr high <= elt arr' k) /\
    slice arr' low high ≡ₚ slice arr low high /\
    (forall s, Sorted Z.le s -> s ≡ₚ slice arr low high ->
               s !! Z.to_nat (p - low) = Some (elt arr high)).
Proof.
  intros H0 Hlh Hh Hfuel.
  destruct (partition_spec fuel arr low high)
    as (p & arr' & Hrun & Hp & Hre & Hpiv & Hle & Hgt); try done.
  pose proof (rearranged_len _ _ _ _ Hre) as Hlen.
  pose proof (rearranged_slice low high arr arr' H0 ltac:(lia) Hh Hre) as Hsl.
  exists p, arr'. split; [done|]. split; [done|].
  split; [rewrite !get_ok by lia; by rewrite Hpiv|].
  split; [intros k Hk; apply Hle; lia|]. split.
  { intros k Hk. destruct (Z.eq_dec k p) as [->|]; [lia|].
    apply Z.lt_le_incl, Hgt. lia. }
  split; [done|]. intros s Hs Hps.
  replace (Z.to_nat (p - low)) with (length (slice arr' low (p - 1))).
  2:{ rewrite slice_length by lia. lia. }
  apply (pivot_final_position _ (slice arr' (p + 1) high)).
  - apply slice_Forall; try lia. intros k Hk. apply Hle. lia.
  - apply slice_Forall; try lia. intros k Hk. apply Z.lt_le_incl, Hgt. lia.
  - done.
  - rewrite Hps, <- Hsl. rewrite (slice_app arr' low p high) by lia.
    rewrite (slice_app arr' p (p + 1) high) by lia.
    replace (p + 1 - 1) with p by lia.
    rewrite slice_singleton by lia. by rewrite Hpiv.
Qed.

Lemma partition_lomuto_correct_witness :
  exists p arr',
    partition 6 [64; 34; 25; 12; 22; 11; 25] 0 6 = Ok (p, arr') /\
    0 <= p <= 6 /\
    get arr' p = get [64; 34; 25; 12; 22; 11; 25] 6 /\
    (forall k, 0 <= k <= p - 1 ->
               elt arr' k <= elt [64; 34; 25; 12; 22; 11; 25] 6) /\
    (forall k, p <= k <= 6 ->
               elt [64; 34; 25; 12; 22; 11; 25] 6 <= elt arr' k) /\
    slice arr' 0 6 ≡ₚ slice [64; 34; 25; 12; 22; 11; 25] 0 6 /\
    (forall s, Sorted Z.le s -> s ≡ₚ slice [64; 34; 25; 12; 22; 11; 25] 0 6 ->
               s !! Z.to_nat (p - 0) =
                 Some (elt [64; 34; 25; 12; 22; 11; 25] 6)).
Proof.
  apply (partition_lomuto_correct 6 [64; 34; 25; 12; 22; 11; 25] 0 6);
    [lia | lia | reflexivity | simpl; lia].
Defined.

(** ** C1, C3: the five sorts with default bounds *)

Lemma whole_array_sorted arr out :
  rearranged 0 (len arr - 1) arr out -> sorted_range 0 (len arr - 1) out ->
  out ≡ₚ arr /\ nondescending out.
Proof.
  intros Hr Hs. pose proof (rearranged_len _ _ _ _ Hr) as Hlen.
  split; [apply Hr|]. apply sorted_range_nondescending. by rewrite Hlen.
Qed.

Lemma quickSort_default_spec fuel arr :
  len arr - 1 <= Z.of_nat fuel ->
  sorted_permutation_of arr (quickSort_default fuel arr).
Proof.
  intros Hfuel.
  destruct (quickSort_spec fuel arr 0 (len arr - 1))
    as (out & Hrun & Hr & Hs); try lia.
  exists out. split; [done|]. by apply whole_array_sorted.
Qed.

Lemma randomizedQuickSort_default_spec random fuel arr :
  (forall n, (0 <= random n)%Q /\ (random n < 1)%Q) ->
  len arr - 1 <= Z.of_nat fuel ->
  sorted_permutation_of arr (randomizedQuickSort_default random fuel arr).
Proof.
  intros Hrand Hfuel. unfold randomizedQuickSort_default.
  destruct (randomizedQuickSort_spec random Hrand fuel O arr 0 (len arr - 1))
    as (out & calls & -> & Hr & Hs); try lia.
  exists out. split; [done|]. by apply whole_array_sorted.
Qed.

Lemma medianOfThreeQuickSort_default_spec fuel arr :
  len arr - 1 <= Z.of_nat fuel ->
  sorted_permutation_of arr (medianOfThreeQuickSort_default fuel arr).
Proof.
  intros Hfuel.
  destruct (medianOfThreeQuickSort_spec fuel arr 0 (len arr - 1))
    as (out & Hrun & Hr & Hs); try lia.
  exists out. split; [done|]. by apply whole_array_sorted.
Qed.

Lemma threeWayQuickSort_default_spec fuel arr :
  len arr - 1 <= Z.of_nat fuel ->
  sorted_permutation_of arr (threeWayQuickSort_default fuel arr).
Proof.
  intros Hfuel.
  destruct (threeWayQuickSort_spec fuel arr 0 (len arr - 1))
    as (out & Hrun & Hr & Hs); try lia.
  exists out. split; [done|]. by apply whole_array_sorted.
Qed.

Lemma iterativeQuickSort_default_spec fuel arr :
  2 * len arr + 1 <= Z.of_nat fuel ->
  sorted_permutation_of arr (iterativeQuickSort fuel arr).
Proof.
  intros Hfuel.
  destruct (iterativeQuickSort_spec fuel arr Hfuel) as (out & Hrun & Hr & Hs).
  exists out. split; [done|]. by apply whole_array_sorted.
Qed.

Lemma sorted_permutation_of_agree arr r1 r2 :
  sorted_permutation_of arr r1 -> sorted_permutation_of arr r2 -> r1 = r2.
Proof.
  intros (o1 & -> & Hp1 & Hs1) (o2 & -> & Hp2 & Hs2). f_equal.
  apply sorted_permutation_unique; [done..|]. by rewrite Hp1, Hp2.
Qed.

(** C1. For every sequence, each of [quickSort], [randomizedQuickSort]
    (whatever the random draws in [[0, 1)]), [medianOfThreeQuickSort],
    [iterativeQuickSort] and [threeWayQuickSort], called with default
    bounds, returns a permutation of the input in which every adjacent pair
    is in non-descending order. *)
Theorem sort_variants_sorted_permutation
    (random : nat -> Q) (fuel : nat) (arr : list Z) :
  (forall n, (0 <= random n)%Q /\ (random n < 1)%Q) ->
  2 * len arr + 1 <= Z.of_nat fuel ->
  sorted_permutation_of arr (quickSort_default fuel arr) /\
  sorted_permutation_of arr (randomizedQuickSort_default random fuel arr) /\
  sorted_permutation_of arr (medianOfThreeQuickSort_default fuel arr) /\
  sorted_permutation_of arr (iterativeQuickSort fuel arr) /\
  sorted_permutation_of arr (threeWayQuickSort_default fuel arr).
Proof.
  intros Hrand Hfuel. pose proof (len_nonneg arr).
  split; [apply quickSort_default_spec; lia|].
  split; [apply randomizedQuickSort_default_spec; [done|lia]|].
  split; [apply medianOfThreeQuickSort_default_spec; lia|].
  split; [by apply iterativeQuickSort_default_spec|].
  apply threeWayQuickSort_default_spec; lia.
Qed.

Lemma sort_variants_sorted_permutation_witness :
  sorted_permutation_of [64; 34; 25; 12; 22; 11; 90]
    (quickSort_default 15 [64; 34; 25; 12; 22; 11; 90]) /\
  sorted_permutation_of [64; 34; 25; 12; 22; 11; 90]
    (randomizedQuickSort_default thirds 15 [64; 34; 25; 12; 22; 11; 90]) /\
  sorted_permutation_of [64; 34; 25; 12; 22; 11; 90]
    (medianOfThreeQuickSort_default 15 [64; 34; 25; 12; 22; 11; 90]) /\
  sorted_permutation_of [64; 34; 25; 12; 22; 11; 90]
    (iterativeQuickSort 15 [64; 34; 25; 12; 22; 11; 90]) /\
  sorted_permutation_of [64; 34; 25; 12; 22; 11; 90]
    (threeWayQuickSort_default 15 [64; 34; 25; 12; 22; 11; 90]).
Proof.
  apply (sort_variants_sorted_permutation thirds 15
           [64; 34; 25; 12; 22; 11; 90]).
  - apply thirds_range.
  - vm_compute. discriminate.
Defined.

(** C3. All variants produce the same final sorted output: there is one
    array [out], a permutation of the input in non-descending order, that
    the recursive [quickSort], [iterativeQuickSort], [randomizedQuickSort]
    (whatever the random draws), [medianOfThreeQuickSort] and
    [threeWayQuickSort] all return, element for element.  The amounts of
    fuel may differ from one run to the other. *)
Theorem sort_variants_agree
    (random : nat -> Q) (f1 f2 f3 f4 f5 : nat) (arr : list Z) :
  (forall n, (0 <= random n)%Q /\ (random n < 1)%Q) ->
  len arr - 1 <= Z.of_nat f1 ->
  2 * len arr + 1 <= Z.of_nat f2 ->
  len arr - 1 <= Z.of_nat f3 ->
  len arr - 1 <= Z.of_nat f4 ->
  len arr - 1 <= Z.of_nat f5 ->
  exists out,
    out ≡ₚ arr /\
    nondescending out /\
    quickSort_default f1 arr = Ok out /\
    iterativeQuickSort f2 arr = Ok out /\
    randomizedQuickSort_default random f3 arr = Ok out /\
    medianOfThreeQuickSort_default f4 arr = Ok out /\
    threeWayQuickSort_default f5 arr = Ok out.
Proof.
  intros Hrand H1 H2 H3 H4 H5.
  pose proof (quickSort_default_spec f1 arr H1) as Hq.
  pose proof Hq as (out & Hrun & Hperm & Hnd). exists out.
  split; [done|]. split; [done|]. split; [done|].
  rewrite <- Hrun. repeat split; apply (sorted_permutation_of_agree arr);
    try done.
  - by apply iterativeQuickSort_default_spec.
  - by apply randomizedQuickSort_default_spec.
  - by apply medianOfThreeQuickSort_default_spec.
  - by apply threeWayQuickSort_default_spec.
Qed.

Lemma sort_variants_agree_witness :
  exists out,
    out ≡ₚ [5; 2; 8; 1; 9; 3; 7; 4; 6] /\
    nondescending out /\
    quickSort_default 8 [5; 2; 8; 1; 9; 3; 7; 4; 6] = Ok out /\
    iterativeQuickSort 19 [5; 2; 8; 1; 9; 3; 7; 4; 6] = Ok out /\
    randomizedQuickSort_default thirds 9 [5; 2; 8; 1; 9; 3; 7; 4; 6]
      = Ok out /\
    medianOfThreeQuickSort_default 10 [5; 2; 8; 1; 9; 3; 7; 4; 6] = Ok out /\
    threeWayQuickSort_default 11 [5; 2; 8; 1; 9; 3; 7; 4; 6] = Ok out.
Proof.
  apply (sort_variants_agree thirds 8 19 9 10 11 [5; 2; 8; 1; 9; 3; 7; 4; 6]);
    try (vm_compute; discriminate).
  apply thirds_range.
Defined.

(** ** C4: termination *)

Lemma enough_fuel (run : nat -> result (list Z)) bound arr low high :
  0 <= low -> high < len arr ->
  (forall fuel, bound <= Z.of_nat fuel ->
     exists out, run fuel = Ok out /\
       rearranged low high arr out /\ sorted_range low high out) ->
  exists out, forall fuel, bound <= Z.of_nat fuel -> run fuel = Ok out.
Proof.
  intros H0 Hh Hrun.
  destruct (Hrun (Z.to_nat bound)) as (out & _ & Hr & Hs); [lia|].
  exists out. intros fuel Hfuel.
  destruct (Hrun fuel Hfuel) as (out' & -> & Hr' & Hs'). f_equal.
  by apply (rearranged_sorted_unique low high arr).
Qed.

(** C4. Every sort terminates on every array, for all valid bounds and all
    random draws: a run that is given fuel for at least [high - low]
    nested calls (for [iterativeQuickSort]: [2 * arr.length + 1] loop
    iterations) ends with a result, which does not depend on the amount. *)
Theorem sorts_terminate (random : nat -> Q) (arr : list Z) (low high : Z) :
  (forall n, (0 <= random n)%Q /\ (random n < 1)%Q) ->
  0 <= low -> high < len arr ->
  (exists out, forall fuel, high - low <= Z.of_nat fuel ->
     quickSort fuel arr low high = Ok out) /\
  (exists out, forall fuel calls, high - low <= Z.of_nat fuel ->
     exists calls',
       randomizedQuickSort random fuel calls arr low high
         = Ok (out, calls')) /\
  (exists out, forall fuel, high - low <= Z.of_nat fuel ->
     medianOfThreeQuickSort fuel arr low high = Ok out) /\
  (exists out, forall fuel, 2 * len arr + 1 <= Z.of_nat fuel ->
     iterativeQuickSort fuel arr = Ok out) /\
  (exists out, forall fuel, high - low <= Z.of_nat fuel ->
     threeWayQuickSort fuel arr low high = Ok out).
Proof.
  intros Hrand H0 Hh. pose proof (len_nonneg arr) as Hn.
  split; [|split; [|split; [|split]]].
  - apply (enough_fuel _ _ arr low high); [done..|].
    intros fuel Hfuel. by apply quickSort_spec.
  - destruct (quickSort_spec (Z.to_nat (high - low)) arr low high)
      as (out & _ & Hr & Hs); [lia..|].
    exists out. intros fuel calls Hfuel.
    destruct (randomizedQuickSort_spec random Hrand fuel calls arr low high)
      as (out' & calls' & -> & Hr' & Hs'); [done..|].
    exists calls'. do 2 f_equal.
    by apply (rearranged_sorted_unique low high arr).
  - apply (enough_fuel _ _ arr low high); [done..|].
    intros fuel Hfuel. by apply medianOfThreeQuickSort_spec.
  - apply (enough_fuel _ _ arr 0 (len arr - 1)); [lia..|].
    intros fuel Hfuel. by apply iterativeQuickSort_spec.
  - apply (enough_fuel _ _ arr low high); [done..|].
    intros fuel Hfuel. by apply threeWayQuickSort_spec.
Qed.

Lemma sorts_terminate_witness :
  (exists out, forall fuel, 5 - 1 <= Z.of_nat fuel ->
     quickSort fuel [9; 5; 4; 3; 2; 1; 0] 1 5 = Ok out) /\
  (exists out, forall fuel calls, 5 - 1 <= Z.of_nat fuel ->
     exists calls',
       randomizedQuickSort thirds fuel calls [9; 5; 4; 3; 2; 1; 0] 1 5
         = Ok (out, calls')) /\
  (exists out, forall fuel, 5 - 1 <= Z.of_nat fuel ->
     medianOfThreeQuickSort fuel [9; 5; 4; 3; 2; 1; 0] 1 5 = Ok out) /\
  (exists out, forall fuel,
     2 * len [9; 5; 4; 3; 2; 1; 0] + 1 <= Z.of_nat fuel ->
     iterativeQuickSort fuel [9; 5; 4; 3; 2; 1; 0] = Ok out) /\
  (exists out, forall fuel, 5 - 1 <= Z.of_nat fuel ->
     threeWayQuickSort fuel [9; 5; 4; 3; 2; 1; 0] 1 5 = Ok out).
Proof.
  apply (sorts_terminate thirds [9; 5; 4; 3; 2; 1; 0] 1 5);
    [apply thirds_range | lia | reflexivity].
Defined.

(** ** C5, C6, C10: the Hoare partition *)

(** C5. For [0 <= low < high < arr.length], [hoarePartition(arr, low, high)]
    takes the original [arr[low]] as pivot and returns a split index [j] with
    [low <= j < high]; afterwards every element at an index in [[low, j]] is
    [<=] the pivot, every element at an index in [[j+1, high]] is [>=] the
    pivot, and the range holds a permutation of its original contents. *)
Theorem hoarePartition_correct (fuel : nat) (arr : list Z) (low high : Z) :
  0 <= low -> low < high -> high < len arr ->
  high - low + 2 <= Z.of_nat fuel ->
  exists j arr',
    hoarePartition fuel arr low high = Ok (j, arr') /\
    low <= j < high /\
    (forall k, low <= k <= j -> elt arr' k <= elt arr low) /\
    (forall k, j + 1 <= k <= high -> elt arr low <= elt arr' k) /\
    slice arr' low high ≡ₚ slice arr low high.
Proof.
  intros H0 Hlh Hh Hfuel.
  destruct (hoarePartition_spec fuel arr low high)
    as (j & arr' & Hrun & Hj & Hj' & Hre & Hle & Hge); try done; try lia.
  exists j, arr'. split; [done|]. split; [lia|]. split; [done|].
  split; [intros k Hk; apply Hge; lia|].
  apply rearranged_slice; try done; lia.
Qed.

Lemma hoarePartition_correct_witness :
  exists j arr',
    hoarePartition 8 [64; 34; 25; 12; 22; 11; 90] 0 6 = Ok (j, arr') /\
    0 <= j < 6 /\
    (forall k, 0 <= k <= j ->
               elt arr' k <= elt [64; 34; 25; 12; 22; 11; 90] 0) /\
    (forall k, j + 1 <= k <= 6 ->
               elt [64; 34; 25; 12; 22; 11; 90] 0 <= elt arr' k) /\
    slice arr' 0 6 ≡ₚ slice [64; 34; 25; 12; 22; 11; 90] 0 6.
Proof.
  apply (hoarePartition_correct 8 [64; 34; 25; 12; 22; 11; 90] 0 6);
    [lia | lia | reflexivity | simpl; lia].
Defined.

(** C6, counterexample.  On [[3, 5, 1, 4, 2]] the Hoare partition returns
    [j = 1] and leaves [[2, 1, 5, 4, 3]]: the pivot 3 is at index 4, neither
    at the returned index 1 nor at index 2, its place in the sorted range. *)
Lemma hoarePartition_pivot_not_at_boundary :
  hoarePartition 6 [3; 5; 1; 4; 2] 0 4 = Ok (1, [2; 1; 5; 4; 3]) /\
  get [3; 5; 1; 4; 2] 0 = Ok 3 /\
  get [2; 1; 5; 4; 3] 1 = Ok 1 /\
  get [2; 1; 5; 4; 3] 2 = Ok 5 /\
  get [2; 1; 5; 4; 3] 1 <> get [3; 5; 1; 4; 2] 0.
Proof. repeat split; try reflexivity. discriminate. Qed.

(** C6, amended.  After [hoarePartition(arr, low, high)] returns [j], for
    [0 <= low < high < arr.length], the pivot (the original [arr[low]]) is
    at some index of [[low, high]], which need not be [j]; [j] is a split
    index: the elements in [[low, j]] are [<=] the pivot and those in
    [[j+1, high]] are [>=] the pivot. *)
Theorem hoarePartition_pivot_in_range
    (fuel : nat) (arr : list Z) (low high : Z) :
  0 <= low -> low < high -> high < len arr ->
  high - low + 2 <= Z.of_nat fuel ->
  exists j arr',
    hoarePartition fuel arr low high = Ok (j, arr') /\
    low <= j < high /\
    (exists m, low <= m <= high /\ get arr' m = get arr low) /\
    (forall k, low <= k <= j -> elt arr' k <= elt arr low) /\
    (forall k, j + 1 <= k <= high -> elt arr low <= elt arr' k).
Proof.
  intros H0 Hlh Hh Hfuel.
  destruct (hoarePartition_spec fuel arr low high)
    as (j & arr' & Hrun & Hj & Hj' & Hre & Hle & Hge); try done; try lia.
  pose proof (rearranged_len _ _ _ _ Hre) as Hlen.
  exists j, arr'. split; [done|]. split; [lia|].
  split; [|split; [done|intros k Hk; apply Hge; lia]].
  assert (Hin : elt arr low ∈ slice arr' low high).
  { rewrite (rearranged_slice low high arr arr') by (done || lia).
    apply list_elem_of_lookup. exists O.
    pose proof (elt_slice arr low high 0) as E0.
    rewrite Z.add_0_r in E0. rewrite <- E0 by lia.
    apply list_lookup_lookup_total_lt. rewrite slice_length by lia. lia. }
  apply list_elem_of_lookup in Hin as [n Hn].
  apply lookup_lt_Some in Hn as Hlt. rewrite slice_length in Hlt by lia.
  apply list_lookup_total_correct in Hn.
  pose proof (elt_slice arr' low high (Z.of_nat n)) as E.
  unfold elt at 1 in E. rewrite Nat2Z.id, Hn in E.
  exists (low + Z.of_nat n). split; [lia|].
  rewrite !get_ok by lia. f_equal. symmetry. apply E; lia.
Qed.

Lemma hoarePartition_pivot_in_range_witness :
  exists j arr',
    hoarePartition 6 [3; 5; 1; 4; 2] 0 4 = Ok (j, arr') /\
    0 <= j < 4 /\
    (exists m, 0 <= m <= 4 /\ get arr' m = get [3; 5; 1; 4; 2] 0) /\
    (forall k, 0 <= k <= j -> elt arr' k <= elt [3; 5; 1; 4; 2] 0) /\
    (forall k, j + 1 <= k <= 4 -> elt [3; 5; 1; 4; 2] 0 <= elt arr' k).
Proof.
  apply (hoarePartition_pivot_in_range 6 [3; 5; 1; 4; 2] 0 4);
    [lia | lia | reflexivity | simpl; lia].
Defined.

(** C10. For [0 <= low <= high < arr.length], every array read and write of
    [hoarePartition(arr, low, high)], those of the two scan loops included,
    uses an index in [[low, high]]: the run ends with [Ok], never with
    [OutOfRange], and every index of its access log lies in the range. *)
Theorem hoarePartition_accesses_in_range
    (fuel : nat) (arr : list Z) (low high : Z) :
  0 <= low -> low <= high -> high < len arr ->
  high - low + 2 <= Z.of_nat fuel ->
  exists j arr' log,
    hoarePartition_traced fuel arr low high = Ok (j, (arr', log)) /\
    hoarePartition fuel arr low high = Ok (j, arr') /\
    (forall k, k ∈ log -> low <= k <= high).
Proof.
  intros H0 Hlh Hh Hfuel.
  destruct (hoarePartition_traced_spec fuel arr low high)
    as (j & arr' & log & Hrun & _ & _ & _ & _ & _ & Hlog); try done.
  exists j, arr', log. split; [done|]. split.
  - unfold hoarePartition. by rewrite Hrun.
  - by apply Forall_forall.
Qed.

Lemma hoarePartition_accesses_in_range_witness :
  exists j arr' log,
    hoarePartition_traced 6 [0; 7; 3; 9; 1; 5; 0] 2 5
      = Ok (j, (arr', log)) /\
    hoarePartition 6 [0; 7; 3; 9; 1; 5; 0] 2 5 = Ok (j, arr') /\
    (forall k, k ∈ log -> 2 <= k <= 5).
Proof.
  apply (hoarePartition_accesses_in_range 6 [0; 7; 3; 9; 1; 5; 0] 2 5);
    [lia | lia | reflexivity | simpl; lia].
Defined.

(** ** C7: the three-way partition *)

(** C7. For [0 <= low <= high < arr.length],
    [threeWayPartition(arr, low, high)] returns [[lt, gt]] such that, with
    the pivot the original [arr[low]], every element in [[low, lt-1]] is
    [<] the pivot, every element in [[lt, gt]] equals it, every element in
    [[gt+1, high]] is [>] it, and the range is a permutation of its original
    contents.  On a range of equal elements it returns [[low, high]] and
    leaves the array as it is, so that the two recursive calls of
    [threeWayQuickSort] are on the empty ranges [[low, low-1]] and
    [[high+1, high]], which return at once. *)
Theorem threeWayPartition_correct
    (fuel : nat) (arr : list Z) (low high : Z) :
  0 <= low -> low <= high -> high < len arr ->
  high - low <= Z.of_nat fuel ->
  (exists lt gt arr',
     threeWayPartition fuel arr low high = Ok (lt, gt, arr') /\
     low <= lt /\ lt <= gt /\ gt <= high /\
     (forall k, low <= k <= lt - 1 -> elt arr' k < elt arr low) /\
     (forall k, lt <= k <= gt -> elt arr' k = elt arr low) /\
     (forall k, gt + 1 <= k <= high -> elt arr low < elt arr' k) /\
     slice arr' low high ≡ₚ slice arr low high) /\
  ((forall k, low <= k <= high -> elt arr k = elt arr low) ->
   threeWayPartition fuel arr low high = Ok (low, high, arr) /\
   (forall fuel', threeWayQuickSort fuel' arr low (low - 1) = Ok arr) /\
   (forall fuel', threeWayQuickSort fuel' arr (high + 1) high = Ok arr) /\
   threeWayQuickSort fuel arr low high = Ok arr).
Proof.
  intros H0 Hlh Hh Hfuel. split.
  - destruct (threeWayPartition_spec fuel arr low high)
      as (lt & gt & arr' & Hrun & ? & ? & ? & Hre & Hlt & Heq & Hgt);
      try done.
    exists lt, gt, arr'. repeat (split; [done|]).
    split; [intros k Hk; apply Hlt; lia|]. split; [done|].
    split; [intros k Hk; apply Hgt; lia|].
    apply rearranged_slice; try done; lia.
  - intros Hall.
    assert (Hpart : forall fuel', high - low <= Z.of_nat fuel' ->
              threeWayPartition fuel' arr low high = Ok (low, high, arr)).
    { intros fuel' Hfuel'. unfold threeWayPartition.
      rewrite get_ok by lia. cbn [bind].
      apply threeWay_loop_all_equal; try lia.
      intros k Hk. apply Hall. lia. }
    assert (Hempty : forall fuel' l h, h < l ->
              threeWayQuickSort fuel' arr l h = Ok arr).
    { intros fuel' l h Hlt. destruct fuel'; simpl;
        by destruct (Z.ltb_spec l h); [lia|]. }
    split; [by apply Hpart|].
    split; [intros; apply Hempty; lia|].
    split; [intros; apply Hempty; lia|].
    destruct fuel as [|fuel]; cbn [threeWayQuickSort];
      destruct (Z.ltb_spec low high) as [Hlt|Hge]; try done; try lia.
    rewrite Hpart by lia. cbn [bind].
    rewrite Hempty by lia. cbn [bind]. apply Hempty. lia.
Qed.

Lemma threeWayPartition_correct_witness :
  (exists lt gt arr',
     threeWayPartition 4 [1; 1; 1; 1; 1] 0 4 = Ok (lt, gt, arr') /\
     0 <= lt /\ lt <= gt /\ gt <= 4 /\
     (forall k, 0 <= k <= lt - 1 -> elt arr' k < elt [1; 1; 1; 1; 1] 0) /\
     (forall k, lt <= k <= gt -> elt arr' k = elt [1; 1; 1; 1; 1] 0) /\
     (forall k, gt + 1 <= k <= 4 -> elt [1; 1; 1; 1; 1] 0 < elt arr' k) /\
     slice arr' 0 4 ≡ₚ slice [1; 1; 1; 1; 1] 0 4) /\
  (threeWayPartition 4 [1; 1; 1; 1; 1] 0 4 = Ok (0, 4, [1; 1; 1; 1; 1]) /\
   (forall fuel',
      threeWayQuickSort fuel' [1; 1; 1; 1; 1] 0 (0 - 1)
        = Ok [1; 1; 1; 1; 1]) /\
   (forall fuel',
      threeWayQuickSort fuel' [1; 1; 1; 1; 1] (4 + 1) 4
        = Ok [1; 1; 1; 1; 1]) /\
   threeWayQuickSort 4 [1; 1; 1; 1; 1] 0 4 = Ok [1; 1; 1; 1; 1]).
Proof.
  destruct (threeWayPartition_correct 4 [1; 1; 1; 1; 1] 0 4)
    as [Hzones Hequal]; [lia | lia | reflexivity | simpl; lia |].
  split; [exact Hzones|]. apply Hequal. intros k Hk.
  assert (k = 0 \/ k = 1 \/ k = 2 \/ k = 3 \/ k = 4) as Hcases by lia.
  destruct Hcases as [->|[->|[->|[->| ->]]]]; reflexivity.
Defined.

(** ** C8: the frame of [quickSort] *)

(** C8. For explicit bounds [0 <= low <= high < arr.length],
    [quickSort(arr, low, high)] returns the array with the range
    [[low, high]] rearranged into a non-descending permutation of the
    elements that were in that range, and with every position outside the
    range holding the value it held before the call. *)
Theorem quickSort_sorts_range_only
    (fuel : nat) (arr : list Z) (low high : Z) :
  0 <= low -> low <= high -> high < len arr ->
  high - low <= Z.of_nat fuel ->
  exists out,
    quickSort fuel arr low high = Ok out /\
    len out = len arr /\
    slice out low high ≡ₚ slice arr low high /\
    nondescending (slice out low high) /\
    (forall k, k < low \/ high < k -> get out k = get arr k).
Proof.
  intros H0 Hlh Hh Hfuel.
  destruct (quickSort_spec fuel arr low high)
    as (out & Hrun & Hre & Hs); try done.
  pose proof (rearranged_len _ _ _ _ Hre) as Hlen.
  exists out. split; [done|]. split; [done|].
  split; [apply rearranged_slice; try done; lia|].
  split; [apply sorted_range_slice_nondescending; try done; lia|].
  intros k Hk. destruct (decide (0 <= k < len arr)) as [Hin|Hout].
  - rewrite !get_ok by lia. f_equal. by apply Hre.
  - rewrite !get_outside by lia. done.
Qed.

Lemma quickSort_sorts_range_only_witness :
  exists out,
    quickSort 3 [9; 5; 4; 3; 2; 1; 0] 2 5 = Ok out /\
    len out = len [9; 5; 4; 3; 2; 1; 0] /\
    slice out 2 5 ≡ₚ slice [9; 5; 4; 3; 2; 1; 0] 2 5 /\
    nondescending (slice out 2 5) /\
    (forall k, k < 2 \/ 5 < k -> get out k = get [9; 5; 4; 3; 2; 1; 0] k).
Proof.
  apply (quickSort_sorts_range_only 3 [9; 5; 4; 3; 2; 1; 0] 2 5);
    [lia | lia | reflexivity | simpl; lia].
Defined.

(** ** C9: empty and single-element arrays *)

(** C9. On an empty or a single-element array every sort, called with
    default bounds, signals nothing and returns the array as it is.  The
    recursive sorts do so without entering their body; the loop of
    [iterativeQuickSort] runs once. *)
Theorem sorts_leave_short_arrays
    (random : nat -> Q) (fuel : nat) (arr : list Z) :
  len arr <= 1 ->
  quickSort_default fuel arr = Ok arr /\
  randomizedQuickSort_default random fuel arr = Ok arr /\
  medianOfThreeQuickSort_default fuel arr = Ok arr /\
  iterativeQuickSort (S fuel) arr = Ok arr /\
  threeWayQuickSort_default fuel arr = Ok arr.
Proof.
  intros Hlen.
  unfold quickSort_default, randomizedQuickSort_default,
    medianOfThreeQuickSort_default, threeWayQuickSort_default,
    iterativeQuickSort.
  cbn [iterative_loop].
  destruct fuel; simpl;
    destruct (Z.ltb_spec 0 (len arr - 1)); try lia; done.
Qed.

Lemma sorts_leave_short_arrays_witness :
  quickSort_default 0 [7] = Ok [7] /\
  randomizedQuickSort_default thirds 0 [7] = Ok [7] /\
  medianOfThreeQuickSort_default 0 [7] = Ok [7] /\
  iterativeQuickSort 1 [7] = Ok [7] /\
  threeWayQuickSort_default 0 [7] = Ok [7].
Proof.
  apply (sorts_leave_short_arrays thirds 0 [7]). vm_compute. discriminate.
Defined.

(** * Further properties of the module *)

(** ** [swap] *)

Ltac swapped_eq := swapped_cases; try (f_equal; lia).

Lemma list_eq_elt (a b : list Z) :
  len a = len b -> (forall k, 0 <= k < len a -> elt a k = elt b k) -> a = b.
Proof.
  intros Hlen Helt. unfold len in Hlen. apply list_eq. intros n.
  destruct (decide (n < length a)%nat) as [Hlt|Hge].
  - pose proof (elt_lookup a (Z.of_nat n)) as Ea.
    pose proof (elt_lookup b (Z.of_nat n)) as Eb.
    unfold len in Ea, Eb. rewrite Nat2Z.id in Ea, Eb.
    rewrite Ea, Eb by lia. f_equal. apply Helt. unfold len. lia.
  - rewrite !lookup_ge_None_2 by lia. done.
Qed.

Lemma get_eq_elt (a b : list Z) k :
  len a = len b -> (0 <= k < len a -> elt a k = elt b k) ->
  get a k = get b k.
Proof.
  intros Hlen Helt. destruct (decide (0 <= k < len a)) as [Hin|Hout].
  - rewrite !get_ok by lia. f_equal. by apply Helt.
  - rewrite !get_outside by lia. done.
Qed.

(** X1. [swap(arr, i, j)] with both indices inside the array exchanges the
    elements at [i] and [j]: the length is kept, [arr[i]] and [arr[j]] trade
    places, every other index reads as before, and the result is a
    permutation of the array. *)
Theorem swap_exchanges (arr : list Z) (i j : Z) :
  0 <= i < len arr -> 0 <= j < len arr ->
  exists arr',
    swap arr i j = Ok arr' /\
    len arr' = len arr /\
    get arr' i = get arr j /\
    get arr' j = get arr i /\
    (forall k, k <> i -> k <> j -> get arr' k = get arr k) /\
    arr' ≡ₚ arr.
Proof.
  intros Hi Hj. exists (swapped arr i j). split; [by apply swap_ok|].
  pose proof (swapped_len arr i j) as Hlen.
  split; [done|]. split; [|split; [|split]].
  - rewrite !get_ok by lia. f_equal. swapped_eq.
  - rewrite !get_ok by lia. f_equal. swapped_eq.
  - intros k Hki Hkj. apply get_eq_elt; [done|].
    intros Hk. swapped_eq.
  - by apply swapped_perm.
Qed.

Lemma swap_exchanges_witness :
  exists arr',
    swap [64; 34; 25; 12] 1 3 = Ok arr' /\
    len arr' = len [64; 34; 25; 12] /\
    get arr' 1 = get [64; 34; 25; 12] 3 /\
    get arr' 3 = get [64; 34; 25; 12] 1 /\
    (forall k, k <> 1 -> k <> 3 -> get arr' k = get [64; 34; 25; 12] k) /\
    arr' ≡ₚ [64; 34; 25; 12].
Proof.
  apply (swap_exchanges [64; 34; 25; 12] 1 3); split; (lia || reflexivity).
Defined.

(** X2. [swap] does not depend on the order of its two indices, and a
    second [swap] of the same pair restores the array. *)
Theorem swap_symmetric_involutive (arr : list Z) (i j : Z) :
  0 <= i < len arr -> 0 <= j < len arr ->
  swap arr i j = swap arr j i /\
  exists arr', swap arr i j = Ok arr' /\ swap arr' i j = Ok arr.
Proof.
  intros Hi Hj. pose proof (swapped_len arr i j) as Hlen.
  pose proof (swapped_len arr j i) as Hlen'. split.
  - rewrite !swap_ok by done. f_equal. apply list_eq_elt; [lia|].
    intros k Hk. swapped_eq.
  - exists (swapped arr i j). split; [by apply swap_ok|].
    rewrite swap_ok by lia. f_equal. apply list_eq_elt.
    + by rewrite swapped_len.
    + intros k Hk. rewrite swapped_len, Hlen in Hk.
      rewrite (swapped_elt (swapped arr i j)) by lia. swapped_eq.
Qed.

Lemma swap_symmetric_involutive_witness :
  swap [64; 34; 25; 12] 0 2 = swap [64; 34; 25; 12] 2 0 /\
  exists arr',
    swap [64; 34; 25; 12] 0 2 = Ok arr' /\ swap arr' 0 2 = Ok [64; 34; 25; 12].
Proof.
  apply (swap_symmetric_involutive [64; 34; 25; 12] 0 2);
    split; (lia || reflexivity).
Defined.

(** ** [medianOfThree] *)

Lemma swap_if_elt (c : bool) arr i j :
  0 <= i < len arr -> 0 <= j < len arr ->
  exists arr',
    (if c then swap arr i j else Ok arr) = Ok arr' /\
    len arr' = len arr /\ arr' ≡ₚ arr /\
    (forall k, 0 <= k ->
       elt arr' k =
         if c then
           if k =? j then elt arr i else if k =? i then elt arr j
           else elt arr k
         else elt arr k).
Proof.
  intros Hi Hj. destruct c.
  - exists (swapped arr i j). split; [by apply swap_ok|].
    split; [apply swapped_len|]. split; [by apply swapped_perm|].
    intros k Hk. by apply swapped_elt.
  - exists arr. done.
Qed.

Ltac compare_cases :=
  repeat match goal with
    | |- context [?x =? ?y] => destruct (Z.eqb_spec x y); try lia
    | |- context [?x <? ?y] => destruct (Z.ltb_spec x y); try lia
    end.

(** X3. For [0 <= low <= high < arr.length], [medianOfThree] returns the
    middle index [floor((low + high) / 2)] and leaves the three probed
    elements in order, [arr[low] <= arr[mid] <= arr[high]]: the median of
    the three is at the returned index.  Only the three probed places may
    change, and the array is a permutation of what it was. *)
Theorem medianOfThree_orders (arr : list Z) (low high : Z) :
  0 <= low -> low <= high -> high < len arr ->
  exists arr',
    medianOfThree arr low high = Ok ((low + high) / 2, arr') /\
    low <= (low + high) / 2 <= high /\
    elt arr' low <= elt arr' ((low + high) / 2) /\
    elt arr' ((low + high) / 2) <= elt arr' high /\
    arr' ≡ₚ arr /\
    (forall k, k <> low -> k <> (low + high) / 2 -> k <> high ->
               get arr' k = get arr k).
Proof.
  intros H0 Hlh Hh. unfold medianOfThree.
  pose proof (mid_range low high Hlh) as Hmid.
  set (mid := (low + high) / 2) in *.
  rewrite !get_ok by lia. cbn [bind].
  destruct (swap_if_elt (elt arr mid <? elt arr low) arr low mid)
    as (a1 & -> & Hlen1 & Hp1 & E1); try lia.
  cbn [bind]. rewrite !get_ok by lia. cbn [bind].
  destruct (swap_if_elt (elt a1 high <? elt a1 low) a1 low high)
    as (a2 & -> & Hlen2 & Hp2 & E2); try lia.
  cbn [bind]. rewrite !get_ok by lia. cbn [bind].
  destruct (swap_if_elt (elt a2 high <? elt a2 mid) a2 mid high)
    as (a3 & -> & Hlen3 & Hp3 & E3); try lia.
  cbn [bind]. exists a3. split; [done|]. split; [done|].
  split; [|split; [|split]].
  - rewrite !E3, !E2, !E1 by lia. compare_cases.
  - rewrite !E3, !E2, !E1 by lia. compare_cases.
  - by rewrite Hp3, Hp2, Hp1.
  - intros k Hkl Hkm Hkh. apply get_eq_elt; [lia|]. intros Hk.
    rewrite !E3, !E2, !E1 by lia. compare_cases.
Qed.

Lemma medianOfThree_orders_witness :
  exists arr',
    medianOfThree [64; 34; 25; 12; 22; 11; 90] 0 5
      = Ok ((0 + 5) / 2, arr') /\
    0 <= (0 + 5) / 2 <= 5 /\
    elt arr' 0 <= elt arr' ((0 + 5) / 2) /\
    elt arr' ((0 + 5) / 2) <= elt arr' 5 /\
    arr' ≡ₚ [64; 34; 25; 12; 22; 11; 90] /\
    (forall k, k <> 0 -> k <> (0 + 5) / 2 -> k <> 5 ->
               get arr' k = get [64; 34; 25; 12; 22; 11; 90] k).
Proof.
  apply (medianOfThree_orders [64; 34; 25; 12; 22; 11; 90] 0 5);
    [lia | lia | reflexivity].
Defined.

(** ** [isSorted] and [benchmarkSort] *)

Lemma isSorted_loop_false fuel arr :
  forall i,
    1 <= i -> isSorted_loop fuel arr i = Ok false ->
    exists k, 0 <= k /\ k + 1 < len arr /\ elt arr (k + 1) < elt arr k.
Proof.
  induction fuel as [|fuel IH]; intros i Hi Hrun.
  - simpl in Hrun. by destruct (i <? len arr).
  - cbn [isSorted_loop] in Hrun.
    destruct (Z.ltb_spec i (len arr)) as [Hlt|Hge]; [|done].
    rewrite !get_ok in Hrun by lia. cbn [bind] in Hrun.
    destruct (Z.ltb_spec (elt arr i) (elt arr (i - 1))) as [Hv|Hv].
    + exists (i - 1). replace (i - 1 + 1) with i by lia. lia.
    + apply (IH (i + 1)); [lia|done].
Qed.

(** X4. [isSorted] decides the order of the array without leaving it: it
    returns [true] exactly when every adjacent pair is in non-descending
    order, and [false] exactly when some element is smaller than the one
    before it. *)
Theorem isSorted_decides (fuel : nat) (arr : list Z) :
  len arr - 1 <= Z.of_nat fuel ->
  exists b,
    isSorted fuel arr = Ok b /\
    (b = true <-> nondescending arr) /\
    (b = false <->
     exists k, 0 <= k /\ k + 1 < len arr /\ elt arr (k + 1) < elt arr k).
Proof.
  intros Hfuel. destruct (isSorted_spec fuel arr Hfuel) as (b & Hrun & Hb).
  exists b. split; [done|]. split; [done|]. split.
  - intros ->. by apply (isSorted_loop_false fuel arr 1).
  - intros (k & Hk0 & Hk1 & Hdesc). destruct b; [|done].
    pose proof (proj1 Hb eq_refl k (elt arr k) (elt arr (k + 1))) as Hnd.
    rewrite !get_ok in Hnd by lia. specialize (Hnd eq_refl eq_refl). lia.
Qed.

Lemma isSorted_decides_witness :
  exists b,
    isSorted 4 [11; 12; 25; 22; 34] = Ok b /\
    (b = true <-> nondescending [11; 12; 25; 22; 34]) /\
    (b = false <->
     exists k, 0 <= k /\ k + 1 < len [11; 12; 25; 22; 34] /\
               elt [11; 12; 25; 22; 34] (k + 1) < elt [11; 12; 25; 22; 34] k).
Proof.
  apply (isSorted_decides 4 [11; 12; 25; 22; 34]). vm_compute. discriminate.
Defined.

Lemma isSorted_sorted_permutation fuel arr r :
  sorted_permutation_of arr r -> len arr - 1 <= Z.of_nat fuel ->
  exists out, r = Ok out /\ isSorted fuel out = Ok true.
Proof.
  intros (out & -> & Hp & Hnd) Hfuel. exists out. split; [done|].
  assert (Hlen : len out = len arr) by (unfold len; by rewrite Hp).
  destruct (isSorted_spec fuel out) as (b & Hrun & Hb); [lia|].
  rewrite Hrun. f_equal. by apply Hb.
Qed.

(** X5. The output of every sort passes the module's own check: after
    [quickSort], [randomizedQuickSort], [medianOfThreeQuickSort],
    [iterativeQuickSort] or [threeWayQuickSort] with default bounds,
    [isSorted] returns [true]. *)
Theorem sorts_pass_isSorted (random : nat -> Q) (fuel : nat) (arr : list Z) :
  (forall n, (0 <= random n)%Q /\ (random n < 1)%Q) ->
  2 * len arr + 1 <= Z.of_nat fuel ->
  (exists out, quickSort_default fuel arr = Ok out /\
               isSorted fuel out = Ok true) /\
  (exists out, randomizedQuickSort_default random fuel arr = Ok out /\
               isSorted fuel out = Ok true) /\
  (exists out, medianOfThreeQuickSort_default fuel arr = Ok out /\
               isSorted fuel out = Ok true) /\
  (exists out, iterativeQuickSort fuel arr = Ok out /\
               isSorted fuel out = Ok true) /\
  (exists out, threeWayQuickSort_default fuel arr = Ok out /\
               isSorted fuel out = Ok true).
Proof.
  intros Hrand Hfuel. pose proof (len_nonneg arr).
  repeat split; apply (isSorted_sorted_permutation fuel arr); try lia.
  - apply quickSort_default_spec; lia.
  - apply randomizedQuickSort_default_spec; [done|lia].
  - apply medianOfThreeQuickSort_default_spec; lia.
  - by apply iterativeQuickSort_default_spec.
  - apply threeWayQuickSort_default_spec; lia.
Qed.

Lemma sorts_pass_isSorted_witness :
  (exists out, quickSort_default 11 [5; 4; 3; 2; 1] = Ok out /\
               isSorted 11 out = Ok true) /\
  (exists out, randomizedQuickSort_default thirds 11 [5; 4; 3; 2; 1]
                 = Ok out /\
               isSorted 11 out = Ok true) /\
  (exists out, medianOfThreeQuickSort_default 11 [5; 4; 3; 2; 1] = Ok out /\
               isSorted 11 out = Ok true) /\
  (exists out, iterativeQuickSort 11 [5; 4; 3; 2; 1] = Ok out /\
               isSorted 11 out = Ok true) /\
  (exists out, threeWayQuickSort_default 11 [5; 4; 3; 2; 1] = Ok out /\
               isSorted 11 out = Ok true).
Proof.
  apply (sorts_pass_isSorted thirds 11 [5; 4; 3; 2; 1]).
  - apply thirds_range.
  - vm_compute. discriminate.
Defined.

Lemma benchmarkSort_sorting now toFixed fuel arr sortFunction name :
  sorted_permutation_of arr (sortFunction arr) ->
  len arr - 1 <= Z.of_nat fuel ->
  benchmarkSort now toFixed fuel arr sortFunction name =
    Ok (Report.make name (toFixed (now 1%nat - now 0%nat)%Q 4%nat +:+ "ms")
          true (len arr)).
Proof.
  intros Hsort Hfuel. unfold benchmarkSort.
  destruct (isSorted_sorted_permutation fuel arr _ Hsort Hfuel)
    as (out & -> & Hchk).
  cbn [bind]. by rewrite Hchk.
Qed.

(** X6. [benchmarkSort], run with any of the five sorts, reports the name
    it was given, the formatted difference of the two clock readings,
    [isSorted: true] and the length of the input array. *)
Theorem benchmarkSort_reports_sorted
    (now : nat -> Q) (toFixed : Q -> nat -> string) (random : nat -> Q)
    (fuel : nat) (arr : list Z) (name : string) :
  (forall n, (0 <= random n)%Q /\ (random n < 1)%Q) ->
  2 * len arr + 1 <= Z.of_nat fuel ->
  forall sortFunction,
    sortFunction ∈ [quickSort_default fuel;
                    randomizedQuickSort_default random fuel;
                    medianOfThreeQuickSort_default fuel;
                    iterativeQuickSort fuel;
                    threeWayQuickSort_default fuel] ->
    benchmarkSort now toFixed fuel arr sortFunction name =
      Ok (Report.make name
            (toFixed (now 1%nat - now 0%nat)%Q 4%nat +:+ "ms")
            true (len arr)).
Proof.
  intros Hrand Hfuel sortFunction Hin. pose proof (len_nonneg arr).
  apply benchmarkSort_sorting; [|lia].
  repeat (apply elem_of_cons in Hin as [->|Hin]).
  - apply quickSort_default_spec; lia.
  - apply randomizedQuickSort_default_spec; [done|lia].
  - apply medianOfThreeQuickSort_default_spec; lia.
  - by apply iterativeQuickSort_default_spec.
  - apply threeWayQuickSort_default_spec; lia.
  - by apply elem_of_nil in Hin.
Qed.

Lemma benchmarkSort_reports_sorted_witness :
  benchmarkSort (fun n => inject_Z (Z.of_nat n)) (fun _ _ => "1.0000")
    11 [5; 4; 3; 2; 1] (threeWayQuickSort_default 11) "Three-Way" =
  Ok (Report.make "Three-Way"
        ("1.0000" +:+ "ms") true (len [5; 4; 3; 2; 1])).
Proof.
  apply (benchmarkSort_reports_sorted
           (fun n => inject_Z (Z.of_nat n)) (fun _ _ => "1.0000") thirds
           11 [5; 4; 3; 2; 1] "Three-Way").
  - apply thirds_range.
  - vm_compute. discriminate.
  - do 4 apply list_elem_of_further. apply list_elem_of_here.
Defined.

(** ** Sorted inputs and reordered inputs *)

Lemma sorted_permutation_of_self arr :
  nondescending arr -> sorted_permutation_of arr (Ok arr).
Proof. intros Hnd. by exists arr. Qed.

Lemma sorted_permutation_of_perm arr1 arr2 r :
  arr1 ≡ₚ arr2 -> sorted_permutation_of arr1 r -> sorted_permutation_of arr2 r.
Proof.
  intros Hp (out & -> & Hout & Hnd). exists out. split; [done|].
  split; [by rewrite Hout|done].
Qed.

(** X7. Sorting is idempotent: on an array that is already in
    non-descending order every sort, called with default bounds, returns
    the array element for element as it was. *)
Theorem sorts_keep_sorted_input
    (random : nat -> Q) (fuel : nat) (arr : list Z) :
  (forall n, (0 <= random n)%Q /\ (random n < 1)%Q) ->
  2 * len arr + 1 <= Z.of_nat fuel ->
  nondescending arr ->
  quickSort_default fuel arr = Ok arr /\
  randomizedQuickSort_default random fuel arr = Ok arr /\
  medianOfThreeQuickSort_default fuel arr = Ok arr /\
  iterativeQuickSort fuel arr = Ok arr /\
  threeWayQuickSort_default fuel arr = Ok arr.
Proof.
  intros Hrand Hfuel Hnd. pose proof (len_nonneg arr).
  pose proof (sorted_permutation_of_self arr Hnd) as Hself.
  repeat split; apply (sorted_permutation_of_agree arr); try done.
  - apply quickSort_default_spec; lia.
  - apply randomizedQuickSort_default_spec; [done|lia].
  - apply medianOfThreeQuickSort_default_spec; lia.
  - by apply iterativeQuickSort_default_spec.
  - apply threeWayQuickSort_default_spec; lia.
Qed.

Lemma sorts_keep_sorted_input_witness :
  quickSort_default 11 [1; 2; 3; 4; 5] = Ok [1; 2; 3; 4; 5] /\
  randomizedQuickSort_default thirds 11 [1; 2; 3; 4; 5]
    = Ok [1; 2; 3; 4; 5] /\
  medianOfThreeQuickSort_default 11 [1; 2; 3; 4; 5] = Ok [1; 2; 3; 4; 5] /\
  iterativeQuickSort 11 [1; 2; 3; 4; 5] = Ok [1; 2; 3; 4; 5] /\
  threeWayQuickSort_default 11 [1; 2; 3; 4; 5] = Ok [1; 2; 3; 4; 5].
Proof.
  apply (sorts_keep_sorted_input thirds 11 [1; 2; 3; 4; 5]).
  - apply thirds_range.
  - vm_compute. discriminate.
  - intros k x y Hx Hy.
    apply get_Ok_inv in Hx as [Hk ->]. apply get_Ok_inv in Hy as [Hk' ->].
    assert (k = 0 \/ k = 1 \/ k = 2 \/ k = 3) as Hcases
      by (unfold len in *; simpl in *; lia).
    destruct Hcases as [->|[->|[->| ->]]]; vm_compute; discriminate.
Defined.

(** X8. The result of a sort depends on the elements of the array only, not
    on their order: two arrays that are permutations of one another are
    sorted to the same array by every variant, whatever the random draws. *)
Theorem sorts_ignore_input_order
    (random1 random2 : nat -> Q) (fuel : nat) (arr1 arr2 : list Z) :
  (forall n, (0 <= random1 n)%Q /\ (random1 n < 1)%Q) ->
  (forall n, (0 <= random2 n)%Q /\ (random2 n < 1)%Q) ->
  arr1 ≡ₚ arr2 ->
  2 * len arr1 + 1 <= Z.of_nat fuel ->
  quickSort_default fuel arr1 = quickSort_default fuel arr2 /\
  randomizedQuickSort_default random1 fuel arr1
    = randomizedQuickSort_default random2 fuel arr2 /\
  medianOfThreeQuickSort_default fuel arr1
    = medianOfThreeQuickSort_default fuel arr2 /\
  iterativeQuickSort fuel arr1 = iterativeQuickSort fuel arr2 /\
  threeWayQuickSort_default fuel arr1 = threeWayQuickSort_default fuel arr2.
Proof.
  intros Hr1 Hr2 Hp Hfuel. pose proof (len_nonneg arr1).
  assert (Hlen : len arr2 = len arr1) by (unfold len; by rewrite Hp).
  assert (Hagree : forall r1 r2,
            sorted_permutation_of arr1 r1 -> sorted_permutation_of arr2 r2 ->
            r1 = r2).
  { intros r1 r2 H1 H2. apply (sorted_permutation_of_agree arr2); [|done].
    by apply (sorted_permutation_of_perm arr1 arr2). }
  repeat split; apply Hagree.
  - apply quickSort_default_spec; lia.
  - apply quickSort_default_spec; lia.
  - apply randomizedQuickSort_default_spec; [done|lia].
  - apply randomizedQuickSort_default_spec; [done|lia].
  - apply medianOfThreeQuickSort_default_spec; lia.
  - apply medianOfThreeQuickSort_default_spec; lia.
  - by apply iterativeQuickSort_default_spec.
  - apply iterativeQuickSort_default_spec; lia.
  - apply threeWayQuickSort_default_spec; lia.
  - apply threeWayQuickSort_default_spec; lia.
Qed.

Lemma sorts_ignore_input_order_witness :
  quickSort_default 9 [3; 1; 2; 1] = quickSort_default 9 [1; 2; 1; 3] /\
  randomizedQuickSort_default thirds 9 [3; 1; 2; 1]
    = randomizedQuickSort_default (fun _ => 0%Q) 9 [1; 2; 1; 3] /\
  medianOfThreeQuickSort_default 9 [3; 1; 2; 1]
    = medianOfThreeQuickSort_default 9 [1; 2; 1; 3] /\
  iterativeQuickSort 9 [3; 1; 2; 1] = iterativeQuickSort 9 [1; 2; 1; 3] /\
  threeWayQuickSort_default 9 [3; 1; 2; 1]
    = threeWayQuickSort_default 9 [1; 2; 1; 3].
Proof.
  apply (sorts_ignore_input_order thirds (fun _ => 0%Q) 9
           [3; 1; 2; 1] [1; 2; 1; 3]).
  - apply thirds_range.
  - intros n. split; [apply Qle_refl|reflexivity].
  - apply (Permutation_cons_app [1; 2; 1] []). reflexivity.
  - vm_compute. discriminate.
Defined.

(** ** More on the Lomuto partition *)

Lemma rearranged_get_outside low high arr arr' :
  rearranged low high arr arr' ->
  forall k, k < low \/ high < k -> get arr' k = get arr k.
Proof.
  intros Hre k Hk. pose proof (rearranged_len _ _ _ _ Hre) as Hlen.
  apply get_eq_elt; [done|]. intros Hin. apply Hre; [lia|done].
Qed.

Lemma filter_all (P : Z -> Prop) `{!forall x, Decision (P x)} (l : list Z) :
  Forall P l -> filter P l = l.
Proof.
  induction 1 as [|x l Hx Hl IH]; [done|].
  rewrite filter_cons_True by done. by rewrite IH.
Qed.

Lemma filter_none (P : Z -> Prop) `{!forall x, Decision (P x)} (l : list Z) :
  Forall (fun x => ~ P x) l -> filter P l = [].
Proof.
  induction 1 as [|x l Hx Hl IH]; [done|].
  by rewrite filter_cons_False by done.
Qed.

Lemma swapped_same arr i : 0 <= i < len arr -> swapped arr i i = arr.
Proof.
  intros Hi. apply list_eq_elt; [apply swapped_len|].
  intros k Hk. rewrite swapped_len in Hk. swapped_eq.
Qed.

(** X9. The Lomuto [partition] works inside its range: the length of the
    array is kept, every index outside [[low, high]] reads as before, and
    the elements right of the returned index are strictly greater than the
    pivot (the original [arr[high]]). *)
Theorem partition_frame_strict (fuel : nat) (arr : list Z) (low high : Z) :
  0 <= low -> low <= high -> high < len arr ->
  high - low <= Z.of_nat fuel ->
  exists p arr',
    partition fuel arr low high = Ok (p, arr') /\
    len arr' = len arr /\
    (forall k, k < low \/ high < k -> get arr' k = get arr k) /\
    (forall k, p < k <= high -> elt arr high < elt arr' k).
Proof.
  intros H0 Hlh Hh Hfuel.
  destruct (partition_spec fuel arr low high)
    as (p & arr' & Hrun & Hp & Hre & Hpiv & Hle & Hgt); try done.
  exists p, arr'. split; [done|].
  split; [by apply (rearranged_len low high)|].
  split; [by apply rearranged_get_outside|done].
Qed.

Lemma partition_frame_strict_witness :
  exists p arr',
    partition 3 [9; 5; 4; 3; 2; 1; 0] 2 5 = Ok (p, arr') /\
    len arr' = len [9; 5; 4; 3; 2; 1; 0] /\
    (forall k, k < 2 \/ 5 < k -> get arr' k = get [9; 5; 4; 3; 2; 1; 0] k) /\
    (forall k, p < k <= 5 -> elt [9; 5; 4; 3; 2; 1; 0] 5 < elt arr' k).
Proof.
  apply (partition_frame_strict 3 [9; 5; 4; 3; 2; 1; 0] 2 5);
    [lia | lia | reflexivity | simpl; lia].
Defined.

(** X10. The index that [partition] returns counts the elements that are
    not greater than the pivot: [p - low] is the number of elements of
    [arr[low .. high-1]] that are [<=] the original [arr[high]]. *)
Theorem partition_index_counts (fuel : nat) (arr : list Z) (low high : Z) :
  0 <= low -> low <= high -> high < len arr ->
  high - low <= Z.of_nat fuel ->
  exists p arr',
    partition fuel arr low high = Ok (p, arr') /\
    p - low =
      Z.of_nat (length (filter (fun x => x <= elt arr high)
                          (slice arr low (high - 1)))).
Proof.
  intros H0 Hlh Hh Hfuel.
  destruct (partition_spec fuel arr low high)
    as (p & arr' & Hrun & Hp & Hre & Hpiv & Hle & Hgt); try done.
  pose proof (rearranged_len _ _ _ _ Hre) as Hlen.
  pose proof (rearranged_slice low high arr arr' H0 ltac:(lia) Hh Hre) as Hsl.
  exists p, arr'. split; [done|].
  set (P := fun x : Z => x <= elt arr high).
  apply (filter_Permutation P) in Hsl. apply Permutation_length in Hsl.
  rewrite (slice_app arr' low p high) in Hsl by lia.
  rewrite (slice_app arr' p (p + 1) high) in Hsl by lia.
  replace (p + 1 - 1) with p in Hsl by lia.
  rewrite (slice_app arr low high high) in Hsl by lia.
  rewrite !slice_singleton in Hsl by lia. rewrite Hpiv in Hsl.
  rewrite !filter_app in Hsl.
  rewrite (filter_all P (slice arr' low (p - 1))) in Hsl.
  2:{ apply slice_Forall; try lia. intros k Hk. apply Hle. lia. }
  rewrite (filter_none P (slice arr' (p + 1) high)) in Hsl.
  2:{ apply slice_Forall; try lia. intros k Hk. unfold P.
      pose proof (Hgt k). lia. }
  rewrite !(filter_all P [elt arr high]) in Hsl
    by (apply Forall_singleton; unfold P; lia).
  rewrite !length_app, slice_length in Hsl by lia. simpl in Hsl. lia.
Qed.

Lemma partition_index_counts_witness :
  exists p arr',
    partition 6 [64; 34; 25; 12; 22; 11; 25] 0 6 = Ok (p, arr') /\
    p - 0 =
      Z.of_nat (length (filter (fun x => x <= elt [64; 34; 25; 12; 22; 11; 25] 6)
                          (slice [64; 34; 25; 12; 22; 11; 25] 0 (6 - 1)))).
Proof.
  apply (partition_index_counts 6 [64; 34; 25; 12; 22; 11; 25] 0 6);
    [lia | lia | reflexivity | simpl; lia].
Defined.

Lemma partition_loop_all_below fuel arr pivot high :
  forall j,
    0 <= j -> j <= high -> high < len arr ->
    (forall k, j <= k < high -> elt arr k <= pivot) ->
    high - j <= Z.of_nat fuel ->
    partition_loop fuel arr pivot high (j - 1) j = Ok (high - 1, arr).
Proof.
  induction fuel as [|fuel IH]; intros j H0 Hj Hh Hall Hfuel.
  - assert (j = high) as -> by lia. simpl. by rewrite Z.ltb_irrefl.
  - cbn [partition_loop]. destruct (Z.ltb_spec j high) as [Hlt|Hge].
    2:{ by assert (j = high) as -> by lia. }
    rewrite get_ok by lia. cbn [bind].
    destruct (Z.leb_spec (elt arr j) pivot) as [Hv|Hv].
    2:{ pose proof (Hall j). lia. }
    replace (j - 1 + 1) with j by lia.
    rewrite swap_ok, swapped_same by lia. cbn [bind].
    replace j with (j + 1 - 1) at 1 by lia.
    apply IH; try lia. intros k Hk. apply Hall. lia.
Qed.

(** X11. When the pivot is a maximum of the range, as on an array that is
    already sorted, [partition] changes nothing and returns [high]: the
    split is as uneven as it can be. *)
Theorem partition_maximal_pivot (fuel : nat) (arr : list Z) (low high : Z) :
  0 <= low -> low <= high -> high < len arr ->
  high - low <= Z.of_nat fuel ->
  (forall k, low <= k <= high -> elt arr k <= elt arr high) ->
  partition fuel arr low high = Ok (high, arr).
Proof.
  intros H0 Hlh Hh Hfuel Hmax. unfold partition.
  rewrite get_ok by lia. cbn [bind].
  rewrite partition_loop_all_below; try lia.
  2:{ intros k Hk. apply Hmax. lia. }
  cbn [bind]. replace (high - 1 + 1) with high by lia.
  by rewrite swap_ok, swapped_same by lia.
Qed.

Lemma partition_maximal_pivot_witness :
  partition 4 [1; 2; 3; 4; 5] 0 4 = Ok (4, [1; 2; 3; 4; 5]).
Proof.
  apply (partition_maximal_pivot 4 [1; 2; 3; 4; 5] 0 4);
    [lia | lia | reflexivity | simpl; lia |].
  intros k Hk.
  assert (k = 0 \/ k = 1 \/ k = 2 \/ k = 3 \/ k = 4) as Hcases by lia.
  destruct Hcases as [->|[->|[->|[->| ->]]]]; vm_compute; discriminate.
Defined.

Lemma partition_loop_all_above fuel arr pivot high i :
  forall j,
    0 <= j -> j <= high -> high < len arr ->
    (forall k, j <= k < high -> pivot < elt arr k) ->
    high - j <= Z.of_nat fuel ->
    partition_loop fuel arr pivot high i j = Ok (i, arr).
Proof.
  induction fuel as [|fuel IH]; intros j H0 Hj Hh Hall Hfuel.
  - assert (j = high) as -> by lia. simpl. by rewrite Z.ltb_irrefl.
  - cbn [partition_loop]. destruct (Z.ltb_spec j high) as [Hlt|Hge]; [|done].
    rewrite get_ok by lia. cbn [bind].
    destruct (Z.leb_spec (elt arr j) pivot) as [Hv|Hv].
    { pose proof (Hall j). lia. }
    apply IH; try lia. intros k Hk. apply Hall. lia.
Qed.

(** X12. When the pivot is smaller than every other element of the range,
    as on an array sorted in descending order, [partition] makes a single
    exchange, of [arr[low]] and [arr[high]], and returns [low]. *)
Theorem partition_minimal_pivot (fuel : nat) (arr : list Z) (low high : Z) :
  0 <= low -> low <= high -> high < len arr ->
  high - low <= Z.of_nat fuel ->
  (forall k, low <= k < high -> elt arr high < elt arr k) ->
  exists arr',
    swap arr low high = Ok arr' /\
    partition fuel arr low high = Ok (low, arr').
Proof.
  intros H0 Hlh Hh Hfuel Hmin. unfold partition.
  rewrite get_ok by lia. cbn [bind].
  rewrite partition_loop_all_above; try lia; [|done].
  cbn [bind]. replace (low - 1 + 1) with low by lia.
  rewrite swap_ok by lia. by eexists.
Qed.

Lemma partition_minimal_pivot_witness :
  exists arr',
    swap [5; 4; 3; 2; 1] 0 4 = Ok arr' /\
    partition 4 [5; 4; 3; 2; 1] 0 4 = Ok (0, arr').
Proof.
  apply (partition_minimal_pivot 4 [5; 4; 3; 2; 1] 0 4);
    [lia | lia | reflexivity | simpl; lia |].
  intros k Hk.
  assert (k = 0 \/ k = 1 \/ k = 2 \/ k = 3) as Hcases by lia.
  destruct Hcases as [->|[->|[->| ->]]]; reflexivity.
Defined.

(** ** More on the Hoare partition *)

(** X13. [hoarePartition] works inside its range: for
    [0 <= low <= high < arr.length] the length of the array is kept and
    every index outside [[low, high]] reads as before. *)
Theorem hoarePartition_frame (fuel : nat) (arr : list Z) (low high : Z) :
  0 <= low -> low <= high -> high < len arr ->
  high - low + 2 <= Z.of_nat fuel ->
  exists j arr',
    hoarePartition fuel arr low high = Ok (j, arr') /\
    len arr' = len arr /\
    (forall k, k < low \/ high < k -> get arr' k = get arr k).
Proof.
  intros H0 Hlh Hh Hfuel.
  destruct (hoarePartition_spec fuel arr low high)
    as (j & arr' & Hrun & _ & _ & Hre & _ & _); try done.
  exists j, arr'. split; [done|].
  split; [by apply (rearranged_len low high)|].
  by apply rearranged_get_outside.
Qed.

Lemma hoarePartition_frame_witness :
  exists j arr',
    hoarePartition 6 [0; 7; 3; 9; 1; 5; 0] 2 5 = Ok (j, arr') /\
    len arr' = len [0; 7; 3; 9; 1; 5; 0] /\
    (forall k, k < 2 \/ 5 < k -> get arr' k = get [0; 7; 3; 9; 1; 5; 0] k).
Proof.
  apply (hoarePartition_frame 6 [0; 7; 3; 9; 1; 5; 0] 2 5);
    [lia | lia | reflexivity | simpl; lia].
Defined.

(** X14. On a range of one element [hoarePartition] returns that index and
    leaves the array as it is: both scans stop at [low] at once. *)
Theorem hoarePartition_single (fuel : nat) (arr : list Z) (low : Z) :
  0 <= low < len arr ->
  hoarePartition (S fuel) arr low low = Ok (low, arr).
Proof.
  intros Hlow.
  unfold hoarePartition, hoarePartition_traced, get_t.
  cbn [fst snd]. rewrite get_ok by lia.
  cbn [bind hoare_loop scan_up scan_down]. unfold get_t. cbn [fst snd].
  replace (low - 1 + 1) with low by lia.
  replace (low + 1 - 1) with low by lia.
  rewrite get_ok by lia. cbn [bind].
  rewrite Z.ltb_irrefl. cbn [bind fst snd].
  rewrite get_ok by lia. cbn [bind].
  rewrite Z.gtb_ltb, Z.ltb_irrefl. cbn [bind].
  destruct (Z.geb_spec low low); [done|lia].
Qed.

Lemma hoarePartition_single_witness :
  hoarePartition 1 [4; 8; 6] 1 1 = Ok (1, [4; 8; 6]).
Proof.
  apply (hoarePartition_single 0 [4; 8; 6] 1). split; (lia || reflexivity).
Defined.

(** ** More on the three-way partition *)

(** X15. [threeWayPartition] works inside its range, and the zones it
    returns are counts: the array keeps its length, every index outside
    [[low, high]] reads as before, [lt - low] is the number of elements of
    the range smaller than the pivot (the original [arr[low]]), and
    [gt - lt + 1] is the number of elements equal to it. *)
Theorem threeWayPartition_counts (fuel : nat) (arr : list Z) (low high : Z) :
  0 <= low -> low <= high -> high < len arr ->
  high - low <= Z.of_nat fuel ->
  exists lt gt arr',
    threeWayPartition fuel arr low high = Ok (lt, gt, arr') /\
    len arr' = len arr /\
    (forall k, k < low \/ high < k -> get arr' k = get arr k) /\
    lt - low =
      Z.of_nat (length (filter (fun x => x < elt arr low)
                          (slice arr low high))) /\
    gt - lt + 1 =
      Z.of_nat (length (filter (fun x => x = elt arr low)
                          (slice arr low high))).
Proof.
  intros H0 Hlh Hh Hfuel.
  destruct (threeWayPartition_spec fuel arr low high)
    as (lt & gt & arr' & Hrun & Hl & Hlg & Hg & Hre & Hlt & Heq & Hgt);
    try done.
  pose proof (rearranged_len _ _ _ _ Hre) as Hlen.
  pose proof (rearranged_slice low high arr arr' H0 ltac:(lia) Hh Hre) as Hsl.
  exists lt, gt, arr'. split; [done|]. split; [done|].
  split; [by apply rearranged_get_outside|].
  assert (Hsplit : slice arr' low high =
            slice arr' low (lt - 1) ++ slice arr' lt gt
              ++ slice arr' (gt + 1) high).
  { rewrite (slice_app arr' low lt high) by lia.
    by rewrite (slice_app arr' lt (gt + 1) high),
      (Z.add_simpl_r gt 1) by lia. }
  assert (HA : forall Q : Z -> Prop,
            (forall x, x < elt arr low -> Q x) ->
            Forall Q (slice arr' low (lt - 1))).
  { intros Q HQ. apply slice_Forall; try lia.
    intros k Hk. apply HQ, Hlt. lia. }
  assert (HB : forall Q : Z -> Prop,
            Q (elt arr low) -> Forall Q (slice arr' lt gt)).
  { intros Q HQ. apply slice_Forall; try lia.
    intros k Hk. by rewrite Heq by lia. }
  assert (HC : forall Q : Z -> Prop,
            (forall x, elt arr low < x -> Q x) ->
            Forall Q (slice arr' (gt + 1) high)).
  { intros Q HQ. apply slice_Forall; try lia.
    intros k Hk. apply HQ, Hgt. lia. }
  split.
  - set (P := fun x : Z => x < elt arr low).
    apply (filter_Permutation P) in Hsl. apply Permutation_length in Hsl.
    rewrite Hsplit, !filter_app in Hsl.
    rewrite (filter_all P (slice arr' low (lt - 1))) in Hsl
      by (apply HA; unfold P; lia).
    rewrite (filter_none P (slice arr' lt gt)) in Hsl
      by (apply HB; unfold P; lia).
    rewrite (filter_none P (slice arr' (gt + 1) high)) in Hsl
      by (apply HC; unfold P; lia).
    rewrite !length_app, slice_length in Hsl by lia. simpl in Hsl. lia.
  - set (P := fun x : Z => x = elt arr low).
    apply (filter_Permutation P) in Hsl. apply Permutation_length in Hsl.
    rewrite Hsplit, !filter_app in Hsl.
    rewrite (filter_none P (slice arr' low (lt - 1))) in Hsl
      by (apply HA; unfold P; lia).
    rewrite (filter_all P (slice arr' lt gt)) in Hsl
      by (apply HB; unfold P; lia).
    rewrite (filter_none P (slice arr' (gt + 1) high)) in Hsl
      by (apply HC; unfold P; lia).
    rewrite !length_app, slice_length in Hsl by lia. simpl in Hsl. lia.
Qed.

Lemma threeWayPartition_counts_witness :
  exists lt gt arr',
    threeWayPartition 5 [3; 1; 3; 5; 3; 0] 0 5 = Ok (lt, gt, arr') /\
    len arr' = len [3; 1; 3; 5; 3; 0] /\
    (forall k, k < 0 \/ 5 < k -> get arr' k = get [3; 1; 3; 5; 3; 0] k) /\
    lt - 0 =
      Z.of_nat (length (filter (fun x => x < elt [3; 1; 3; 5; 3; 0] 0)
                          (slice [3; 1; 3; 5; 3; 0] 0 5))) /\
    gt - lt + 1 =
      Z.of_nat (length (filter (fun x => x = elt [3; 1; 3; 5; 3; 0] 0)
                          (slice [3; 1; 3; 5; 3; 0] 0 5))).
Proof.
  apply (threeWayPartition_counts 5 [3; 1; 3; 5; 3; 0] 0 5);
    [lia | lia | reflexivity | simpl; lia].
Defined.

(** ** The other sorts on a sub-range *)

Lemma sorted_rearranged_range_only low high arr out :
  0 <= low -> low <= high -> high < len arr ->
  rearranged low high arr out -> sorted_range low high out ->
  range_sorted_only low high arr out.
Proof.
  intros H0 Hlh Hh Hre Hs. pose proof (rearranged_len _ _ _ _ Hre) as Hlen.
  split; [done|]. split; [apply rearranged_slice; try done; lia|].
  split; [apply sorted_range_slice_nondescending; try done; lia|].
  by apply rearranged_get_outside.
Qed.

(** X16. Like [quickSort], the sorts [randomizedQuickSort],
    [medianOfThreeQuickSort] and [threeWayQuickSort] with explicit bounds
    [0 <= low <= high < arr.length] sort the range [[low, high]] and touch
    nothing else: the range becomes a non-descending permutation of its
    contents, the length is kept and every index outside the range reads
    as before. *)
Theorem variants_sort_range_only
    (random : nat -> Q) (fuel calls : nat) (arr : list Z) (low high : Z) :
  (forall n, (0 <= random n)%Q /\ (random n < 1)%Q) ->
  0 <= low -> low <= high -> high < len arr ->
  high - low <= Z.of_nat fuel ->
  (exists out calls',
     randomizedQuickSort random fuel calls arr low high
       = Ok (out, calls') /\
     range_sorted_only low high arr out) /\
  (exists out,
     medianOfThreeQuickSort fuel arr low high = Ok out /\
     range_sorted_only low high arr out) /\
  (exists out,
     threeWayQuickSort fuel arr low high = Ok out /\
     range_sorted_only low high arr out).
Proof.
  intros Hrand H0 Hlh Hh Hfuel. split; [|split].
  - destruct (randomizedQuickSort_spec random Hrand fuel calls arr low high)
      as (out & calls' & Hrun & Hre & Hs); try done.
    exists out, calls'. split; [done|].
    by apply sorted_rearranged_range_only.
  - destruct (medianOfThreeQuickSort_spec fuel arr low high)
      as (out & Hrun & Hre & Hs); try done.
    exists out. split; [done|]. by apply sorted_rearranged_range_only.
  - destruct (threeWayQuickSort_spec fuel arr low high)
      as (out & Hrun & Hre & Hs); try done.
    exists out. split; [done|]. by apply sorted_rearranged_range_only.
Qed.

Lemma variants_sort_range_only_witness :
  (exists out calls',
     randomizedQuickSort thirds 3 0 [9; 5; 4; 3; 2; 1; 0] 2 5
       = Ok (out, calls') /\
     range_sorted_only 2 5 [9; 5; 4; 3; 2; 1; 0] out) /\
  (exists out,
     medianOfThreeQuickSort 3 [9; 5; 4; 3; 2; 1; 0] 2 5 = Ok out /\
     range_sorted_only 2 5 [9; 5; 4; 3; 2; 1; 0] out) /\
  (exists out,
     threeWayQuickSort 3 [9; 5; 4; 3; 2; 1; 0] 2 5 = Ok out /\
     range_sorted_only 2 5 [9; 5; 4; 3; 2; 1; 0] out).
Proof.
  apply (variants_sort_range_only thirds 3 0 [9; 5; 4; 3; 2; 1; 0] 2 5);
    [apply thirds_range | lia | lia | reflexivity | simpl; lia].
Defined.

(** ** The random draws *)

Lemma randomizedQuickSort_draws_spec random fuel :
  (forall n, (0 <= random n)%Q /\ (random n < 1)%Q) ->
  forall calls arr low high,
    0 <= low -> high < len arr -> high - low <= Z.of_nat fuel ->
    exists arr' calls',
      randomizedQuickSort random fuel calls arr low high
        = Ok (arr', calls') /\
      len arr' = len arr /\
      Z.of_nat calls + (if low <? high then 1 else 0) <= Z.of_nat calls' /\
      Z.of_nat calls' <= Z.of_nat calls + Z.max 0 (high - low).
Proof.
  intros Hrand.
  induction fuel as [|fuel IH]; intros calls arr low high H0 Hh Hfuel.
  - simpl. destruct (Z.ltb_spec low high); [lia|].
    exists arr, calls. split; [done|]. split; [done|]. lia.
  - cbn [randomizedQuickSort].
    destruct (Z.ltb_spec low high) as [Hlt|Hge].
    2:{ exists arr, calls. split; [done|]. split; [done|]. lia. }
    destruct (Hrand calls) as [Hr0 Hr1].
    pose proof (randomIndex_range (random calls) low high Hr0 Hr1) as Hri.
    set (ri := randomIndex (random calls) low high) in *.
    rewrite swap_ok by lia. cbn [bind].
    pose proof (swapped_len arr ri high) as Hlen0.
    set (a0 := swapped arr ri high) in *.
    destruct (partition_spec (S fuel) a0 low high)
      as (p & a1 & Hrun & Hp & Hr1' & _); try lia.
    rewrite Hrun. cbn [bind].
    pose proof (rearranged_len _ _ _ _ Hr1') as Hlen1.
    destruct (IH (S calls) a1 low (p - 1))
      as (a2 & c2 & Hrun2 & Hlen2 & Hlo2 & Hhi2); try lia.
    rewrite Hrun2. cbn [bind].
    destruct (IH c2 a2 (p + 1) high)
      as (a3 & c3 & Hrun3 & Hlen3 & Hlo3 & Hhi3); try lia.
    rewrite Hrun3. exists a3, c3. split; [done|]. split; [lia|].
    destruct (low <? p - 1), (p + 1 <? high); lia.
Qed.

(** X17. [randomizedQuickSort] on [[low, high]] calls [Math.random] at
    least once when the range has two elements or more, at most
    [high - low] times, and never on a range of fewer than two elements. *)
Theorem randomizedQuickSort_draws
    (random : nat -> Q) (fuel calls : nat) (arr : list Z) (low high : Z) :
  (forall n, (0 <= random n)%Q /\ (random n < 1)%Q) ->
  0 <= low -> high < len arr -> high - low <= Z.of_nat fuel ->
  exists out calls',
    randomizedQuickSort random fuel calls arr low high = Ok (out, calls') /\
    (low < high -> Z.of_nat calls + 1 <= Z.of_nat calls') /\
    Z.of_nat calls' <= Z.of_nat calls + Z.max 0 (high - low) /\
    (high <= low -> calls' = calls).
Proof.
  intros Hrand H0 Hh Hfuel.
  destruct (randomizedQuickSort_draws_spec random fuel Hrand
              calls arr low high)
    as (out & calls' & Hrun & _ & Hlo & Hhi); try done.
  exists out, calls'. split; [done|].
  destruct (Z.ltb_spec low high); repeat split; lia.
Qed.

Lemma randomizedQuickSort_draws_witness :
  exists out calls',
    randomizedQuickSort thirds 6 0 [64; 34; 25; 12; 22; 11; 90] 0 6
      = Ok (out, calls') /\
    (0 < 6 -> Z.of_nat 0 + 1 <= Z.of_nat calls') /\
    Z.of_nat calls' <= Z.of_nat 0 + Z.max 0 (6 - 0) /\
    (6 <= 0 -> calls' = 0%nat).
Proof.
  apply (randomizedQuickSort_draws thirds 6 0
           [64; 34; 25; 12; 22; 11; 90] 0 6);
    [apply thirds_range | lia | reflexivity | simpl; lia].
Defined.

(** Every index of the range is the outcome of some draw of the oracle, so
    that a statement about every oracle is a statement about every choice
    of pivot indices in the range. *)
Lemma randomIndex_attains (low high m : Z) :
  low <= m <= high ->
  exists r, (0 <= r)%Q /\ (r < 1)%Q /\ randomIndex r low high = m.
Proof.
  intros Hm. exists (m - low # Z.to_pos (high - low + 1)).
  split; [|split].
  - unfold Qle. simpl. lia.
  - unfold Qlt. simpl. rewrite Z2Pos.id by lia. lia.
  - unfold randomIndex, Qfloor, Qmult, inject_Z. simpl.
    rewrite Pos.mul_1_r, Z2Pos.id by lia.
    rewrite Z.div_mul by lia. lia.
Qed.

(** ** What the benchmark report says of any sort function *)

(** X19. Whatever [sortFunction] does to the copy of the array, the report
    of [benchmarkSort] is honest about it: the field [isSorted] is [true]
    exactly when the array that [sortFunction] left is in non-descending
    order, [algorithm] is the name given, and [arrayLength] is the length of
    the input array. *)
Theorem benchmarkSort_report_fields
    (now : nat -> Q) (toFixed : Q -> nat -> string) (fuel : nat)
    (arr out : list Z) (sortFunction : list Z -> result (list Z))
    (name : string) :
  sortFunction arr = Ok out ->
  len out - 1 <= Z.of_nat fuel ->
  exists report,
    benchmarkSort now toFixed fuel arr sortFunction name = Ok report /\
    (Report.isSorted report = true <-> nondescending out) /\
    Report.algorithm report = name /\
    Report.arrayLength report = len arr.
Proof.
  intros Hrun Hfuel. unfold benchmarkSort. rewrite Hrun. cbn [bind].
  destruct (isSorted_spec fuel out Hfuel) as (b & -> & Hb). cbn [bind].
  eexists. split; [done|]. by cbn.
Qed.

Lemma benchmarkSort_report_fields_witness :
  exists report,
    benchmarkSort (fun n => inject_Z (Z.of_nat n)) (fun _ _ => "1.0000") 4
      [5; 4; 3; 2; 1] (fun a => swap a 0 4) "one swap" = Ok report /\
    (Report.isSorted report = true <-> nondescending [1; 4; 3; 2; 5]) /\
    Report.algorithm report = "one swap" /\
    Report.arrayLength report = len [5; 4; 3; 2; 1].
Proof.
  apply (benchmarkSort_report_fields
           (fun n => inject_Z (Z.of_nat n)) (fun _ _ => "1.0000") 4
           [5; 4; 3; 2; 1] [1; 4; 3; 2; 5] (fun a => swap a 0 4) "one swap").
  - reflexivity.
  - vm_compute. discriminate.
Defined.
